(** * Needleman-Wunsch global alignment ([homework2.py])

    A shallow embedding of [global_alignment] and the properties of its
    scoring matrix and of its traceback.

    Conventions of the embedding.
    - A Python [str] is a [list ascii]; the gap marker is the character
      ["-"], which is an ordinary character and may occur in an input.
    - Python integers are [Z].  The cells of the numpy matrix
      ([dtype=int]) are 64-bit signed integers: a cell holds a [Z] in
      [[-2^63, 2^63)]; storing a Python integer outside that range raises
      [OverflowError]; adding a Python integer to a cell, or subtracting it,
      raises [OverflowError] when the Python integer is outside that range
      and otherwise wraps around modulo [2^64].
    - [nw_cell] is the recurrence over the mathematical integers; the
      matrix of a run holds it whenever [no_overflow] holds of the input
      (lemma [score_matrix_of_spec]).
    - Subscripting follows Python and numpy: an index [k] with
      [-len <= k < 0] denotes position [len + k]; an index outside
      [-len <= k < len] raises [IndexError].
    - The [while] loop of the traceback is run with fuel; the fuel that
      [global_alignment] provides is shown to suffice for every input. *)

From Stdlib Require Import ZArith Ascii String Lia.
From stdpp Require Import base list numbers.

Abbreviation length := List.length.

Local Open Scope Z_scope.

(** ** Results of Python computations *)

Inductive result (A : Type) : Type :=
  | Ok (a : A)
  | IndexError
  | OverflowError
  | OutOfFuel.
Arguments Ok {A} a.
Arguments IndexError {A}.
Arguments OverflowError {A}.
Arguments OutOfFuel {A}.

Global Instance result_ret : MRet result := @Ok.
Global Instance result_bind : MBind result := fun A B f r =>
  match r with
  | Ok a => f a
  | IndexError => IndexError
  | OverflowError => OverflowError
  | OutOfFuel => OutOfFuel
  end.

(** ** Machine integers

    The cells of [np.zeros(..., dtype=int)] are 64-bit signed integers. *)

Definition int64_min : Z := -9223372036854775808.
Definition int64_max : Z := 9223372036854775807.

(** [z] is the value of a 64-bit signed integer. *)
Definition fits64 (z : Z) : bool := (int64_min <=? z) && (z <=? int64_max).

(** The 64-bit signed integer congruent to [z] modulo [2^64]. *)
Definition wrap64 (z : Z) : Z :=
  (z - int64_min) mod 18446744073709551616 + int64_min.

(** Storing the Python integer [v] into a cell. *)
Definition np_store (v : Z) : result Z :=
  if fits64 v then Ok v else OverflowError.

(** [c + p] and [c - p] for a cell value [c] and a Python integer [p]. *)
Definition np_add (c p : Z) : result Z :=
  if fits64 p then Ok (wrap64 (c + p)) else OverflowError.

Definition np_sub (c p : Z) : result Z :=
  if fits64 p then Ok (wrap64 (c - p)) else OverflowError.

Global Arguments fits64 : simpl never.
Global Arguments wrap64 : simpl never.
Global Arguments np_store : simpl never.
Global Arguments np_add : simpl never.
Global Arguments np_sub : simpl never.

(** ** Subscripting *)

(** [norm_index n k]: the position that index [k] denotes in a container
    of length [n], if any. *)
Definition norm_index (n : nat) (k : Z) : option nat :=
  let k' := if k <? 0 then k + Z.of_nat n else k in
  if (0 <=? k') && (k' <? Z.of_nat n) then Some (Z.to_nat k') else None.

(** [l[k]] *)
Definition py_getitem {A} (l : list A) (k : Z) : result A :=
  match norm_index (length l) k with
  | Some p => match l !! p with Some x => Ok x | None => IndexError end
  | None => IndexError
  end.

(** [l[k] = x] *)
Definition py_setitem {A} (l : list A) (k : Z) (x : A) : result (list A) :=
  match norm_index (length l) k with
  | Some p => Ok (<[p := x]> l)
  | None => IndexError
  end.

(** ** The score matrix *)

Abbreviation matrix := (list (list Z)).

(** [np.zeros((r, c), dtype=int)] *)
Definition zeros (r c : nat) : matrix := replicate r (replicate c 0).

(** [m[i][j]] *)
Definition mat_get (m : matrix) (i j : Z) : result Z :=
  row ← py_getitem m i; py_getitem row j.

(** [m[i][j] = v] *)
Definition mat_set (m : matrix) (i j : Z) (v : Z) : result matrix :=
  row ← py_getitem m i;
  row' ← py_setitem row j v;
  py_setitem m i row'.

(** ** Loops *)

(** [range(lo, hi)] *)
Definition py_range (lo hi : Z) : list Z := seqZ lo (hi - lo).

(** [for x in xs: s = body x s] *)
Fixpoint for_each {St : Type} (xs : list Z) (body : Z → St → result St) (s : St)
  : result St :=
  match xs with
  | [] => Ok s
  | x :: xs' => s' ← body x s; for_each xs' body s'
  end.

(** ** The aligner *)

Definition gap : ascii := "-"%char.

Definition py_len {A} (l : list A) : Z := Z.of_nat (length l).

(** The value written on the boundary at distance [k] from the origin. *)
Definition boundary_value (gap_penalty : Z) (unpenalized_end_gaps : bool) (k : Z) : Z :=
  if negb unpenalized_end_gaps then - gap_penalty * k else 0.

(** Lines 21-27: allocation and initialization. *)
Definition init_matrix (M N : Z) (gap_penalty : Z) (unpenalized_end_gaps : bool)
  : result matrix :=
  let score_matrix := zeros (Z.to_nat (M + 1)) (Z.to_nat (N + 1)) in
  score_matrix ← for_each (py_range 1 (M + 1))
    (fun i m =>
       v ← np_store (boundary_value gap_penalty unpenalized_end_gaps i);
       mat_set m i 0 v)
    score_matrix;
  for_each (py_range 1 (N + 1))
    (fun j m =>
       v ← np_store (boundary_value gap_penalty unpenalized_end_gaps j);
       mat_set m 0 j v)
    score_matrix.

(** [match_score if seq1[i-1] == seq2[j-1] else -mismatch_penalty] *)
Definition pair_score (seq1 seq2 : list ascii) (match_score mismatch_penalty : Z)
  (i j : Z) : result Z :=
  a ← py_getitem seq1 (i - 1);
  b ← py_getitem seq2 (j - 1);
  Ok (if Ascii.eqb a b then match_score else - mismatch_penalty).

(** Lines 32-35: the body of the inner loop of the fill step. *)
Definition fill_cell (seq1 seq2 : list ascii) (match_score mismatch_penalty gap_penalty : Z)
  (i j : Z) (m : matrix) : result matrix :=
  d ← mat_get m (i - 1) (j - 1);
  s ← pair_score seq1 seq2 match_score mismatch_penalty i j;
  match_ ← np_add d s;
  u ← mat_get m (i - 1) j;
  delete ← np_sub u gap_penalty;
  l ← mat_get m i (j - 1);
  insert ← np_sub l gap_penalty;
  mat_set m i j (Z.max (Z.max match_ delete) insert).

(** Lines 30-35: the fill step. *)
Definition fill_matrix (seq1 seq2 : list ascii) (match_score mismatch_penalty gap_penalty : Z)
  (M N : Z) (m : matrix) : result matrix :=
  for_each (py_range 1 (M + 1))
    (fun i m =>
       for_each (py_range 1 (N + 1))
         (fun j m => fill_cell seq1 seq2 match_score mismatch_penalty gap_penalty i j m)
         m)
    m.

(** Lines 20-35: the matrix the traceback reads. *)
Definition score_matrix_of (seq1 seq2 : list ascii)
  (match_score mismatch_penalty gap_penalty : Z) (unpenalized_end_gaps : bool)
  : result matrix :=
  let M := py_len seq1 in
  let N := py_len seq2 in
  m ← init_matrix M N gap_penalty unpenalized_end_gaps;
  fill_matrix seq1 seq2 match_score mismatch_penalty gap_penalty M N m.

(** The variables of the traceback loop. *)
Record tb_state : Type := TbState {
  tb_i : Z;
  tb_j : Z;
  aligned_seq1 : list ascii;
  aligned_seq2 : list ascii
}.

(** The loop condition [i > 0 or j > 0]. *)
Definition tb_guard (st : tb_state) : bool := (0 <? tb_i st) || (0 <? tb_j st).

(** The moves of the traceback. *)
Inductive move : Type := Diagonal | Up | Left.

(** Lines 42, 47, 51: which branch is taken. *)
Definition tb_choose (seq1 seq2 : list ascii) (match_score mismatch_penalty gap_penalty : Z)
  (m : matrix) (i j : Z) : result move :=
  diag ← (if (0 <? i) && (0 <? j) then
            c ← mat_get m i j;
            d ← mat_get m (i - 1) (j - 1);
            s ← pair_score seq1 seq2 match_score mismatch_penalty i j;
            v ← np_add d s;
            Ok (c =? v)
          else Ok false);
  if diag : bool then Ok Diagonal
  else
    up ← (if 0 <? i then
            c ← mat_get m i j;
            u ← mat_get m (i - 1) j;
            v ← np_sub u gap_penalty;
            Ok (c =? v)
          else Ok false);
    if up : bool then Ok Up else Ok Left.

(** Lines 42-54: one iteration of the traceback loop. *)
Definition tb_body (seq1 seq2 : list ascii) (match_score mismatch_penalty gap_penalty : Z)
  (m : matrix) (st : tb_state) : result tb_state :=
  let i := tb_i st in
  let j := tb_j st in
  mv ← tb_choose seq1 seq2 match_score mismatch_penalty gap_penalty m i j;
  match mv with
  | Diagonal =>
      a ← py_getitem seq1 (i - 1);
      b ← py_getitem seq2 (j - 1);
      Ok (TbState (i - 1) (j - 1) (aligned_seq1 st ++ [a]) (aligned_seq2 st ++ [b]))
  | Up =>
      a ← py_getitem seq1 (i - 1);
      Ok (TbState (i - 1) j (aligned_seq1 st ++ [a]) (aligned_seq2 st ++ [gap]))
  | Left =>
      b ← py_getitem seq2 (j - 1);
      Ok (TbState i (j - 1) (aligned_seq1 st ++ [gap]) (aligned_seq2 st ++ [b]))
  end.

(** Lines 41-54: the traceback loop. *)
Fixpoint tb_loop (seq1 seq2 : list ascii) (match_score mismatch_penalty gap_penalty : Z)
  (m : matrix) (fuel : nat) (st : tb_state) : result tb_state :=
  if tb_guard st then
    match fuel with
    | O => OutOfFuel
    | S fuel' =>
        st' ← tb_body seq1 seq2 match_score mismatch_penalty gap_penalty m st;
        tb_loop seq1 seq2 match_score mismatch_penalty gap_penalty m fuel' st'
    end
  else Ok st.

(** Iterations granted to the traceback loop. *)
Definition tb_fuel (seq1 seq2 : list ascii) : nat :=
  (length seq1 + 2 * length seq2)%nat.

(** Lines 38-40: the loop variables on entry to the traceback loop. *)
Definition tb_init (seq1 seq2 : list ascii) : tb_state :=
  TbState (py_len seq1) (py_len seq2) [] [].

(** Lines 38-54: the traceback from [(M, N)]. *)
Definition traceback (seq1 seq2 : list ascii) (match_score mismatch_penalty gap_penalty : Z)
  (m : matrix) : result tb_state :=
  tb_loop seq1 seq2 match_score mismatch_penalty gap_penalty m (tb_fuel seq1 seq2)
    (tb_init seq1 seq2).

(** [global_alignment(seq1, seq2, match_score, mismatch_penalty, gap_penalty,
    unpenalized_end_gaps)] *)
Definition global_alignment (seq1 seq2 : list ascii)
  (match_score mismatch_penalty gap_penalty : Z) (unpenalized_end_gaps : bool)
  : result (list ascii * list ascii * Z) :=
  m ← score_matrix_of seq1 seq2 match_score mismatch_penalty gap_penalty unpenalized_end_gaps;
  st ← traceback seq1 seq2 match_score mismatch_penalty gap_penalty m;
  score ← mat_get m (py_len seq1) (py_len seq2);
  Ok (rev (aligned_seq1 st), rev (aligned_seq2 st), score).

(** A string literal as a sequence. *)
Definition str (s : string) : list ascii := list_ascii_of_string s.


(** ** The recurrence of the fill step, as a function of the position

    [nw_cell i j] is the value the fill step leaves in cell [(i, j)]
    (lemma [score_matrix_of_spec] below). *)

Section Recurrence.
Variables (seq1 seq2 : list ascii).
Variables (match_score mismatch_penalty gap_penalty : Z).
Variable (unpenalized_end_gaps : bool).

(** The score of pairing [seq1[a]] with [seq2[b]] (positions from 0). *)
Definition pair_value (a b : nat) : Z :=
  match seq1 !! a, seq2 !! b with
  | Some x, Some y => if Ascii.eqb x y then match_score else - mismatch_penalty
  | _, _ => 0
  end.

Definition boundary (k : nat) : Z :=
  boundary_value gap_penalty unpenalized_end_gaps (Z.of_nat k).

Fixpoint nw_cell (i : nat) : nat → Z :=
  match i with
  | O => boundary
  | S i' =>
      fix row (j : nat) : Z :=
        match j with
        | O => boundary (S i')
        | S j' =>
            Z.max (Z.max (nw_cell i' j' + pair_value i' j')
                         (nw_cell i' (S j') - gap_penalty))
                  (row j' - gap_penalty)
        end
  end.

(** The branch the traceback takes at position [(a, b)] of a matrix that
    holds [nw_cell]. *)
Definition nw_move (a b : nat) : move :=
  match a with
  | O => Left
  | S a' =>
      if match b with
         | O => false
         | S b' => nw_cell (S a') (S b') =? nw_cell a' b' + pair_value a' b'
         end
      then Diagonal
      else if nw_cell (S a') b =? nw_cell a' b - gap_penalty then Up
      else Left
  end.
End Recurrence.
Global Arguments nw_cell : simpl never.
Global Arguments nw_move : simpl never.

(** ** What an iteration of the traceback emits

    [emits seq1 seq2 mv a b a' b' x y]: taking the move [mv] at position
    [(a, b)] leads to position [(a', b')] and appends [x] to the first
    output and [y] to the second, every subscript being a position of its
    sequence. *)
Inductive emits (seq1 seq2 : list ascii)
  : move → nat → nat → nat → nat → ascii → ascii → Prop :=
  | emits_Diagonal (a b : nat) (x y : ascii) :
      seq1 !! a = Some x → seq2 !! b = Some y →
      emits seq1 seq2 Diagonal (S a) (S b) a b x y
  | emits_Up (a b : nat) (x : ascii) :
      seq1 !! a = Some x →
      emits seq1 seq2 Up (S a) b a b x gap
  | emits_Left (a b : nat) (y : ascii) :
      seq2 !! b = Some y →
      emits seq1 seq2 Left a (S b) a b gap y.

(** [gapped s out]: [out] is [s] with gap markers inserted. *)
Inductive gapped : list ascii → list ascii → Prop :=
  | gapped_nil : gapped [] []
  | gapped_gap (s out : list ascii) : gapped s out → gapped s (gap :: out)
  | gapped_sym (x : ascii) (s out : list ascii) :
      gapped s out → gapped (x :: s) (x :: out).

(** ** The conditions of the branches of the traceback *)

(** Line 42: [i > 0 and j > 0 and score_matrix[i][j] ==
    score_matrix[i-1][j-1] + (match_score if seq1[i-1] == seq2[j-1] else
    -mismatch_penalty)]. *)
Definition diagonal_holds (seq1 seq2 : list ascii) (match_score mismatch_penalty : Z)
  (m : matrix) (i j : Z) : Prop :=
  0 < i ∧ 0 < j ∧
  ∃ c d s : Z,
    mat_get m i j = Ok c ∧ mat_get m (i - 1) (j - 1) = Ok d
    ∧ pair_score seq1 seq2 match_score mismatch_penalty i j = Ok s
    ∧ np_add d s = Ok c.

(** Line 47: [i > 0 and score_matrix[i][j] == score_matrix[i-1][j] -
    gap_penalty]. *)
Definition up_holds (gap_penalty : Z) (m : matrix) (i j : Z) : Prop :=
  0 < i ∧
  ∃ c u : Z,
    mat_get m i j = Ok c ∧ mat_get m (i - 1) j = Ok u
    ∧ np_sub u gap_penalty = Ok c.

(** ** Runs of the traceback loop

    [tb_reach body k st st']: from the loop variables [st], [k] iterations
    of the loop (each entered with the loop condition true, each completed
    without an exception) lead to the loop variables [st']. *)
Inductive tb_reach (body : tb_state → result tb_state)
  : nat → tb_state → tb_state → Prop :=
  | tb_reach_O (st : tb_state) : tb_reach body O st st
  | tb_reach_S (k : nat) (st st1 st2 : tb_state) :
      tb_guard st = true → body st = Ok st1 → tb_reach body k st1 st2 →
      tb_reach body (S k) st st2.


(** ** Inputs on which no machine integer overflows *)

(** The largest absolute value among the three parameters. *)
Definition magnitude (match_score mismatch_penalty gap_penalty : Z) : Z :=
  Z.max (Z.abs match_score) (Z.max (Z.abs mismatch_penalty) (Z.abs gap_penalty)).

(** [max(|match_score|, |mismatch_penalty|, |gap_penalty|) * (M + N) < 2^63]:
    no value the run computes leaves the 64-bit range. *)
Definition no_overflow (seq1 seq2 : list ascii)
  (match_score mismatch_penalty gap_penalty : Z) : Prop :=
  magnitude match_score mismatch_penalty gap_penalty
  * (py_len seq1 + py_len seq2) ≤ int64_max.

(** ** Matrices seen through positions *)

(** The cell at row [a], column [b], if the matrix has one. *)
Definition cell_at (m : matrix) (a b : nat) : option Z :=
  match m !! a with Some row => row !! b | None => None end.

(** The matrix with cell [(a, b)] replaced. *)
Definition mat_upd (m : matrix) (a b : nat) (v : Z) : matrix :=
  match m !! a with Some row => <[a := <[b := v]> row]> m | None => m end.

(** [m] has [r] rows of [c] cells. *)
Definition shape (m : matrix) (r c : nat) : Prop :=
  length m = r ∧ ∀ a row, m !! a = Some row → length row = c.

(** Every cell of [m] is the value of a 64-bit integer. *)
Definition cells_fit (m : matrix) : Prop :=
  ∀ (a b : nat) (v : Z), cell_at m a b = Some v → int64_min ≤ v ≤ int64_max.

(** [m] has the shape of the score matrix of two sequences of lengths [M]
    and [N] and holds the values [f] on the positions in [P]. *)
Definition holds_on (M N : nat) (f : nat → nat → Z) (P : nat → nat → Prop)
  (m : matrix) : Prop :=
  shape m (S M) (S N) ∧
  ∀ a b, (a ≤ M)%nat → (b ≤ N)%nat → P a b → cell_at m a b = Some (f a b).

(** ** Alignments and their scores

    An alignment of two sequences is a list of columns; a column pairs a
    symbol of each sequence, or sets a symbol of one sequence against a
    gap.  Its score adds up what the docstring of [global_alignment] names:
    the score of a match, the penalty of a mismatch, the penalty of a
    gap. *)
Inductive column : Type :=
  | Both (x y : ascii)
  | Del (x : ascii)
  | Ins (y : ascii).

(** The character a column contributes to the first and to the second
    output. *)
Definition top (c : column) : ascii :=
  match c with Both x _ => x | Del x => x | Ins _ => gap end.

Definition bottom (c : column) : ascii :=
  match c with Both _ y => y | Del _ => gap | Ins y => y end.

(** The symbols of the first and of the second sequence that a list of
    columns consumes. *)
Fixpoint symbols1 (cols : list column) : list ascii :=
  match cols with
  | [] => []
  | Both x _ :: cols' => x :: symbols1 cols'
  | Del x :: cols' => x :: symbols1 cols'
  | Ins _ :: cols' => symbols1 cols'
  end.

Fixpoint symbols2 (cols : list column) : list ascii :=
  match cols with
  | [] => []
  | Both _ y :: cols' => y :: symbols2 cols'
  | Del _ :: cols' => symbols2 cols'
  | Ins y :: cols' => y :: symbols2 cols'
  end.

Definition column_score (match_score mismatch_penalty gap_penalty : Z)
  (c : column) : Z :=
  match c with
  | Both x y => if Ascii.eqb x y then match_score else - mismatch_penalty
  | Del _ => - gap_penalty
  | Ins _ => - gap_penalty
  end.

Fixpoint alignment_score (match_score mismatch_penalty gap_penalty : Z)
  (cols : list column) : Z :=
  match cols with
  | [] => 0
  | c :: cols' =>
      column_score match_score mismatch_penalty gap_penalty c
      + alignment_score match_score mismatch_penalty gap_penalty cols'
  end.

(** The column a move of the traceback emits. *)
Definition column_of (mv : move) (x y : ascii) : column :=
  match mv with
  | Diagonal => Both x y
  | Up => Del x
  | Left => Ins y
  end.

(** * Subscripting at positions *)

Lemma norm_index_nat (n p : nat) :
  (p < n)%nat → norm_index n (Z.of_nat p) = Some p.
Proof.
  intros Hp. unfold norm_index.
  destruct (Z.ltb_spec (Z.of_nat p) 0) as [?|_]; [lia|].
  destruct (Z.leb_spec 0 (Z.of_nat p)); [|lia].
  destruct (Z.ltb_spec (Z.of_nat p) (Z.of_nat n)); [|lia].
  simpl. by rewrite Nat2Z.id.
Qed.

Lemma norm_index_Some (n : nat) (k : Z) (p : nat) :
  norm_index n k = Some p →
  - Z.of_nat n ≤ k < Z.of_nat n ∧ (p < n)%nat ∧
  (0 ≤ k → k = Z.of_nat p) ∧ (k < 0 → k + Z.of_nat n = Z.of_nat p).
Proof.
  unfold norm_index.
  destruct (Z.ltb_spec k 0);
    (match goal with |- context [?a <=? ?b] => destruct (Z.leb_spec a b) end);
    (match goal with |- context [?a <? ?b] => destruct (Z.ltb_spec a b) end);
    simpl; intros [= <-]; lia.
Qed.

Lemma py_getitem_nat {A} (l : list A) (p : nat) (x : A) :
  l !! p = Some x → py_getitem l (Z.of_nat p) = Ok x.
Proof.
  intros Hl. unfold py_getitem.
  rewrite norm_index_nat by (by eapply lookup_lt_Some). by rewrite Hl.
Qed.

Lemma py_getitem_Ok {A} (l : list A) (k : Z) (x : A) :
  py_getitem l k = Ok x → - py_len l ≤ k < py_len l.
Proof.
  unfold py_getitem, py_len.
  destruct (norm_index (length l) k) as [p|] eqn:Hn; [|done].
  intros _. by apply norm_index_Some in Hn as [? _].
Qed.

Lemma py_setitem_nat {A} (l : list A) (p : nat) (x : A) :
  (p < length l)%nat → py_setitem l (Z.of_nat p) x = Ok (<[p := x]> l).
Proof. intros Hp. unfold py_setitem. by rewrite norm_index_nat. Qed.

Lemma mat_get_nat (m : matrix) (a b : nat) (v : Z) :
  cell_at m a b = Some v → mat_get m (Z.of_nat a) (Z.of_nat b) = Ok v.
Proof.
  unfold cell_at, mat_get. destruct (m !! a) as [row|] eqn:Hrow; [|done].
  intros Hv. rewrite (py_getitem_nat _ _ _ Hrow). simpl.
  by apply py_getitem_nat.
Qed.

Lemma mat_set_nat (m : matrix) (r c a b : nat) (v : Z) :
  shape m r c → (a < r)%nat → (b < c)%nat →
  mat_set m (Z.of_nat a) (Z.of_nat b) v = Ok (mat_upd m a b v).
Proof.
  intros [Hr Hc] Ha Hb. unfold mat_set, mat_upd.
  destruct (lookup_lt_is_Some_2 m a) as [row Hrow]; [lia|].
  rewrite (py_getitem_nat _ _ _ Hrow), Hrow. simpl.
  rewrite py_setitem_nat by (rewrite (Hc _ _ Hrow); lia). simpl.
  apply py_setitem_nat. lia.
Qed.

Lemma shape_zeros (r c : nat) : shape (zeros r c) r c.
Proof.
  unfold zeros. split; [by rewrite length_replicate|].
  intros a row [-> _]%lookup_replicate. by rewrite length_replicate.
Qed.

Lemma cell_at_zeros (r c a b : nat) :
  (a < r)%nat → (b < c)%nat → cell_at (zeros r c) a b = Some 0.
Proof.
  intros Ha Hb. unfold cell_at, zeros.
  rewrite lookup_replicate_2 by done. by apply lookup_replicate_2.
Qed.

Lemma shape_mat_upd (m : matrix) (r c a b : nat) (v : Z) :
  shape m r c → shape (mat_upd m a b v) r c.
Proof.
  intros [Hr Hc]. unfold mat_upd.
  destruct (m !! a) as [row|] eqn:Hrow; [|done].
  split; [by rewrite length_insert|].
  intros a' row' Hrow'.
  destruct (decide (a = a')) as [<-|Hne].
  - rewrite list_lookup_insert_eq in Hrow' by (by eapply lookup_lt_Some).
    injection Hrow' as <-. rewrite length_insert. eauto.
  - rewrite list_lookup_insert_ne in Hrow' by done. eauto.
Qed.

Lemma cell_at_mat_upd_eq (m : matrix) (r c a b : nat) (v : Z) :
  shape m r c → (a < r)%nat → (b < c)%nat →
  cell_at (mat_upd m a b v) a b = Some v.
Proof.
  intros [Hr Hc] Ha Hb. unfold mat_upd, cell_at.
  destruct (lookup_lt_is_Some_2 m a) as [row Hrow]; [lia|]. rewrite Hrow.
  rewrite list_lookup_insert_eq by lia.
  apply list_lookup_insert_eq. rewrite (Hc _ _ Hrow). lia.
Qed.

Lemma cell_at_mat_upd_ne (m : matrix) (a b a' b' : nat) (v : Z) :
  (a, b) ≠ (a', b') → cell_at (mat_upd m a b v) a' b' = cell_at m a' b'.
Proof.
  intros Hne. unfold mat_upd, cell_at.
  destruct (m !! a) as [row|] eqn:Hrow; [|done].
  destruct (decide (a = a')) as [<-|Ha].
  - rewrite list_lookup_insert_eq by (by eapply lookup_lt_Some).
    rewrite Hrow. apply list_lookup_insert_ne. congruence.
  - by rewrite list_lookup_insert_ne.
Qed.

(** * The rule of the counted loop *)

Lemma for_each_seqZ_inv {St : Type} (P : nat → St → Prop)
    (body : Z → St → result St) (n : nat) :
  ∀ (lo : Z) (s : St),
  P O s →
  (∀ (k : nat) (s : St), (k < n)%nat → P k s →
     ∃ s', body (lo + Z.of_nat k) s = Ok s' ∧ P (S k) s') →
  ∃ s', for_each (seqZ lo (Z.of_nat n)) body s = Ok s' ∧ P n s'.
Proof.
  revert P. induction n as [|n IH]; intros P lo s H0 Hstep.
  - rewrite seqZ_nil by lia. simpl. eauto.
  - rewrite seqZ_cons by lia. simpl.
    destruct (Hstep O s) as (s1 & Hb & H1); [lia|done|].
    rewrite Z.add_0_r in Hb. rewrite Hb. simpl.
    replace (Z.pred (Z.of_nat (S n))) with (Z.of_nat n) by lia.
    apply (IH (fun k => P (S k))); [done|].
    intros k s2 Hk Hs2. destruct (Hstep (S k) s2) as (s3 & Hb3 & H3); [lia|done|].
    exists s3. split; [|done]. rewrite <- Hb3. f_equal. lia.
Qed.

Lemma for_each_range_inv {St : Type} (P : nat → St → Prop)
    (body : Z → St → result St) (n : nat) (s : St) :
  P O s →
  (∀ (k : nat) (s : St), (k < n)%nat → P k s →
     ∃ s', body (Z.of_nat (S k)) s = Ok s' ∧ P (S k) s') →
  ∃ s', for_each (py_range 1 (Z.of_nat n + 1)) body s = Ok s' ∧ P n s'.
Proof.
  intros H0 Hstep. unfold py_range.
  replace (Z.of_nat n + 1 - 1) with (Z.of_nat n) by lia.
  apply for_each_seqZ_inv; [done|].
  intros k s1 Hk Hs1. destruct (Hstep k s1 Hk Hs1) as (s2 & Hb & H2).
  exists s2. split; [|done]. rewrite <- Hb. f_equal. lia.
Qed.

(** * The matrix after initialization and after the fill step *)

Lemma boundary_0 (gap_penalty : Z) (unpenalized_end_gaps : bool) :
  boundary gap_penalty unpenalized_end_gaps O = 0.
Proof.
  unfold boundary, boundary_value. destruct unpenalized_end_gaps; simpl; lia.
Qed.

Section RecurrenceEquations.
Variables (seq1 seq2 : list ascii).
Variables (match_score mismatch_penalty gap_penalty : Z).
Variable (unpenalized_end_gaps : bool).

Let M : nat := length seq1.
Let N : nat := length seq2.
Let f : nat → nat → Z :=
  nw_cell seq1 seq2 match_score mismatch_penalty gap_penalty unpenalized_end_gaps.

Lemma nw_cell_row0 (b : nat) :
  nw_cell seq1 seq2 match_score mismatch_penalty gap_penalty
    unpenalized_end_gaps O b
  = boundary gap_penalty unpenalized_end_gaps b.
Proof. done. Qed.

Lemma nw_cell_col0 (a : nat) :
  nw_cell seq1 seq2 match_score mismatch_penalty gap_penalty
    unpenalized_end_gaps a O
  = boundary gap_penalty unpenalized_end_gaps a.
Proof. by destruct a. Qed.

Lemma nw_cell_step (a b : nat) :
  nw_cell seq1 seq2 match_score mismatch_penalty gap_penalty
    unpenalized_end_gaps (S a) (S b)
  = Z.max (Z.max (f a b + pair_value seq1 seq2 match_score mismatch_penalty a b)
                 (f a (S b) - gap_penalty))
          (f (S a) b - gap_penalty).
Proof. done. Qed.

End RecurrenceEquations.

(** * Properties of the recurrence *)

Section RecurrenceFacts.
Variables (seq1 seq2 : list ascii).
Variable (unpenalized_end_gaps : bool).



(** The cells grow with [match_score] and shrink when a penalty grows. *)
Lemma pair_value_mono (ms mp ms' mp' : Z) (a b : nat) :
  ms ≤ ms' → mp' ≤ mp →
  pair_value seq1 seq2 ms mp a b ≤ pair_value seq1 seq2 ms' mp' a b.
Proof.
  intros Hms Hmp. unfold pair_value.
  destruct (seq1 !! a) as [x|], (seq2 !! b) as [y|]; try done.
  destruct (Ascii.eqb x y); lia.
Qed.

Lemma boundary_mono (gp gp' : Z) (k : nat) :
  gp' ≤ gp →
  boundary gp unpenalized_end_gaps k ≤ boundary gp' unpenalized_end_gaps k.
Proof.
  intros Hgp. unfold boundary, boundary_value.
  destruct unpenalized_end_gaps; simpl; [done|nia].
Qed.

Lemma nw_cell_mono (ms mp gp ms' mp' gp' : Z) (i : nat) :
  ms ≤ ms' → mp' ≤ mp → gp' ≤ gp →
  ∀ j : nat,
  nw_cell seq1 seq2 ms mp gp unpenalized_end_gaps i j
  ≤ nw_cell seq1 seq2 ms' mp' gp' unpenalized_end_gaps i j.
Proof.
  intros Hms Hmp Hgp. induction i as [|i IHi]; intros j.
  - rewrite !nw_cell_row0. by apply boundary_mono.
  - induction j as [|j IHj].
    + rewrite !nw_cell_col0. by apply boundary_mono.
    + rewrite !nw_cell_step.
      pose proof (IHi j). pose proof (IHi (S j)).
      pose proof (pair_value_mono ms mp ms' mp' i j Hms Hmp).
      lia.
Qed.

(** With a non-negative reward and non-negative penalties no cell exceeds
    the reward of matching every symbol of the shorter prefix. *)
Lemma pair_value_le (ms mp : Z) (a b : nat) :
  0 ≤ ms → 0 ≤ mp → pair_value seq1 seq2 ms mp a b ≤ ms.
Proof.
  intros Hms Hmp. unfold pair_value.
  destruct (seq1 !! a) as [x|], (seq2 !! b) as [y|]; try done.
  destruct (Ascii.eqb x y); lia.
Qed.

Lemma boundary_le_0 (gp : Z) (k : nat) :
  0 ≤ gp → boundary gp unpenalized_end_gaps k ≤ 0.
Proof.
  intros Hgp. unfold boundary, boundary_value.
  destruct unpenalized_end_gaps; simpl; [done|nia].
Qed.

Lemma nw_cell_le (ms mp gp : Z) (i : nat) :
  0 ≤ ms → 0 ≤ mp → 0 ≤ gp →
  ∀ j : nat,
  nw_cell seq1 seq2 ms mp gp unpenalized_end_gaps i j
  ≤ ms * Z.of_nat (Nat.min i j).
Proof.
  intros Hms Hmp Hgp. induction i as [|i IHi]; intros j.
  - rewrite nw_cell_row0. simpl. pose proof (boundary_le_0 gp j Hgp). lia.
  - induction j as [|j IHj].
    + rewrite nw_cell_col0, Nat.min_0_r.
      pose proof (boundary_le_0 gp (S i) Hgp). lia.
    + rewrite nw_cell_step.
      pose proof (IHi j). pose proof (IHi (S j)).
      pose proof (pair_value_le ms mp i j Hms Hmp).
      replace (Nat.min (S i) (S j)) with (S (Nat.min i j)) by lia.
      assert (Z.of_nat (Nat.min i (S j)) ≤ Z.of_nat (S (Nat.min i j))) by lia.
      assert (Z.of_nat (Nat.min (S i) j) ≤ Z.of_nat (S (Nat.min i j))) by lia.
      nia.
Qed.

(** The range of the cells: when the three parameters lie in [[-B, B]],
    cell [(i, j)] lies in [[-B (i + j), B (i + j)]].  The machine integers
    of the matrix therefore hold every value of a run as long as
    [B * (M + N)] is below their bound. *)
Lemma pair_value_bounded (B ms mp : Z) (a b : nat) :
  - B ≤ ms ≤ B → - B ≤ mp ≤ B →
  - B ≤ pair_value seq1 seq2 ms mp a b ≤ B.
Proof.
  intros Hms Hmp. unfold pair_value.
  destruct (seq1 !! a) as [x|], (seq2 !! b) as [y|]; try lia.
  destruct (Ascii.eqb x y); lia.
Qed.

Lemma boundary_bounded (B gp : Z) (k : nat) :
  - B ≤ gp ≤ B →
  - (B * Z.of_nat k) ≤ boundary gp unpenalized_end_gaps k ≤ B * Z.of_nat k.
Proof.
  intros Hgp. unfold boundary, boundary_value.
  destruct unpenalized_end_gaps; simpl; nia.
Qed.

Lemma nw_cell_bounded (B ms mp gp : Z) (i : nat) :
  - B ≤ ms ≤ B → - B ≤ mp ≤ B → - B ≤ gp ≤ B →
  ∀ j : nat,
  - (B * Z.of_nat (i + j))
  ≤ nw_cell seq1 seq2 ms mp gp unpenalized_end_gaps i j
  ≤ B * Z.of_nat (i + j).
Proof.
  intros Hms Hmp Hgp. induction i as [|i IHi]; intros j.
  - rewrite nw_cell_row0. simpl. by apply boundary_bounded.
  - induction j as [|j IHj].
    + rewrite nw_cell_col0, Nat.add_0_r. by apply boundary_bounded.
    + rewrite nw_cell_step.
      pose proof (IHi j). pose proof (IHi (S j)).
      pose proof (pair_value_bounded B ms mp i j Hms Hmp).
      replace (Z.of_nat (S i + S j)) with (Z.of_nat (i + j) + 2) by lia.
      replace (Z.of_nat (i + S j)) with (Z.of_nat (i + j) + 1) in * by lia.
      replace (Z.of_nat (S i + j)) with (Z.of_nat (i + j) + 1) in * by lia.
      nia.
Qed.
End RecurrenceFacts.

(** * Machine integers *)

Lemma fits64_spec (z : Z) : fits64 z = true ↔ int64_min ≤ z ≤ int64_max.
Proof. unfold fits64. rewrite andb_true_iff, !Z.leb_le. done. Qed.

Lemma wrap64_fits (z : Z) : fits64 (wrap64 z) = true.
Proof.
  apply fits64_spec. unfold wrap64, int64_min, int64_max.
  pose proof (Z.mod_pos_bound (z - -9223372036854775808) 18446744073709551616).
  lia.
Qed.

Lemma wrap64_id (z : Z) : int64_min ≤ z ≤ int64_max → wrap64 z = z.
Proof.
  unfold wrap64, int64_min, int64_max. intros Hz.
  rewrite Z.mod_small by lia. lia.
Qed.

Lemma np_store_exact (v : Z) :
  int64_min ≤ v ≤ int64_max → np_store v = Ok v.
Proof. intros Hv. unfold np_store. by rewrite (proj2 (fits64_spec v)). Qed.

Lemma np_add_exact (c p : Z) :
  int64_min ≤ p ≤ int64_max → int64_min ≤ c + p ≤ int64_max →
  np_add c p = Ok (c + p).
Proof.
  intros Hp Hcp. unfold np_add.
  by rewrite (proj2 (fits64_spec p)), wrap64_id.
Qed.

Lemma np_sub_exact (c p : Z) :
  int64_min ≤ p ≤ int64_max → int64_min ≤ c - p ≤ int64_max →
  np_sub c p = Ok (c - p).
Proof.
  intros Hp Hcp. unfold np_sub.
  by rewrite (proj2 (fits64_spec p)), wrap64_id.
Qed.

Lemma np_store_Ok (v x : Z) :
  np_store v = Ok x → x = v ∧ int64_min ≤ x ≤ int64_max.
Proof.
  unfold np_store. destruct (fits64 v) eqn:Hv; [|done].
  intros [= <-]. by apply fits64_spec in Hv.
Qed.

Lemma np_add_Ok (c p x : Z) :
  np_add c p = Ok x →
  x = wrap64 (c + p) ∧ int64_min ≤ p ≤ int64_max ∧ int64_min ≤ x ≤ int64_max.
Proof.
  unfold np_add. destruct (fits64 p) eqn:Hp; [|done].
  intros [= <-]. apply fits64_spec in Hp.
  split; [done|]. split; [done|]. apply fits64_spec, wrap64_fits.
Qed.

Lemma np_sub_Ok (c p x : Z) :
  np_sub c p = Ok x →
  x = wrap64 (c - p) ∧ int64_min ≤ p ≤ int64_max ∧ int64_min ≤ x ≤ int64_max.
Proof.
  unfold np_sub. destruct (fits64 p) eqn:Hp; [|done].
  intros [= <-]. apply fits64_spec in Hp.
  split; [done|]. split; [done|]. apply fits64_spec, wrap64_fits.
Qed.

Lemma magnitude_bounds (ms mp gp : Z) :
  0 ≤ magnitude ms mp gp
  ∧ - magnitude ms mp gp ≤ ms ≤ magnitude ms mp gp
  ∧ - magnitude ms mp gp ≤ mp ≤ magnitude ms mp gp
  ∧ - magnitude ms mp gp ≤ gp ≤ magnitude ms mp gp.
Proof. unfold magnitude. lia. Qed.

(** A value bounded by [B * k] fits as soon as [B * n] does, [k <= n]. *)
Lemma fits_of_bound (B k n x : Z) :
  0 ≤ B → 0 ≤ k ≤ n → B * n ≤ int64_max →
  - (B * k) ≤ x ≤ B * k → int64_min ≤ x ≤ int64_max.
Proof. unfold int64_min, int64_max. intros HB Hk Hn Hx. nia. Qed.

(** On an input with [no_overflow], every value the run computes is the
    value of a 64-bit integer. *)
Section Range.
Variables (seq1 seq2 : list ascii).
Variables (match_score mismatch_penalty gap_penalty : Z).
Variable (unpenalized_end_gaps : bool).

Hypothesis Hrange :
  no_overflow seq1 seq2 match_score mismatch_penalty gap_penalty.

Lemma range_cell (a b : nat) (d : Z) :
  (a ≤ length seq1)%nat → (b ≤ length seq2)%nat →
  - magnitude match_score mismatch_penalty gap_penalty ≤ d
    ≤ magnitude match_score mismatch_penalty gap_penalty →
  (a + b < length seq1 + length seq2)%nat →
  int64_min
  ≤ nw_cell seq1 seq2 match_score mismatch_penalty gap_penalty
      unpenalized_end_gaps a b + d
  ≤ int64_max.
Proof.
  intros Ha Hb Hd Hlt.
  destruct (magnitude_bounds match_score mismatch_penalty gap_penalty)
    as (HB & Hms & Hmp & Hgp).
  pose proof (nw_cell_bounded seq1 seq2 unpenalized_end_gaps _ _ _ _ a
                Hms Hmp Hgp b) as Hc.
  unfold no_overflow, py_len in Hrange.
  apply (fits_of_bound (magnitude match_score mismatch_penalty gap_penalty)
           (Z.of_nat (a + b) + 1)
           (Z.of_nat (length seq1) + Z.of_nat (length seq2)));
    [done|lia|done|nia].
Qed.

Lemma range_boundary (k : nat) :
  (k ≤ length seq1 + length seq2)%nat →
  int64_min ≤ boundary gap_penalty unpenalized_end_gaps k ≤ int64_max.
Proof.
  intros Hk.
  destruct (magnitude_bounds match_score mismatch_penalty gap_penalty)
    as (HB & _ & _ & Hgp).
  pose proof (boundary_bounded unpenalized_end_gaps _ _ k Hgp) as Hb.
  unfold no_overflow, py_len in Hrange.
  apply (fits_of_bound (magnitude match_score mismatch_penalty gap_penalty)
           (Z.of_nat k)
           (Z.of_nat (length seq1) + Z.of_nat (length seq2)));
    [done|lia|done|done].
Qed.

Lemma range_operand (d : Z) :
  (0 < length seq1 + length seq2)%nat →
  - magnitude match_score mismatch_penalty gap_penalty ≤ d
    ≤ magnitude match_score mismatch_penalty gap_penalty →
  int64_min ≤ d ≤ int64_max.
Proof.
  intros Hpos Hd.
  destruct (magnitude_bounds match_score mismatch_penalty gap_penalty)
    as (HB & _).
  unfold no_overflow, py_len in Hrange.
  apply (fits_of_bound (magnitude match_score mismatch_penalty gap_penalty)
           1 (Z.of_nat (length seq1) + Z.of_nat (length seq2)));
    [done|lia|done|lia].
Qed.

Lemma range_pair_value (a b : nat) :
  - magnitude match_score mismatch_penalty gap_penalty
  ≤ pair_value seq1 seq2 match_score mismatch_penalty a b
  ≤ magnitude match_score mismatch_penalty gap_penalty.
Proof.
  destruct (magnitude_bounds match_score mismatch_penalty gap_penalty)
    as (_ & Hms & Hmp & _).
  by apply pair_value_bounded.
Qed.

Lemma range_gap :
  - magnitude match_score mismatch_penalty gap_penalty ≤ - gap_penalty
    ≤ magnitude match_score mismatch_penalty gap_penalty
  ∧ - magnitude match_score mismatch_penalty gap_penalty ≤ gap_penalty
    ≤ magnitude match_score mismatch_penalty gap_penalty.
Proof.
  destruct (magnitude_bounds match_score mismatch_penalty gap_penalty)
    as (_ & _ & _ & Hgp). lia.
Qed.
End Range.

Section FillBasics.
Variables (seq1 seq2 : list ascii).
Variables (match_score mismatch_penalty gap_penalty : Z).
Variable (unpenalized_end_gaps : bool).

Let M : nat := length seq1.
Let N : nat := length seq2.
Let f : nat → nat → Z :=
  nw_cell seq1 seq2 match_score mismatch_penalty gap_penalty unpenalized_end_gaps.

Lemma holds_on_upd (P Q : nat → nat → Prop) (m : matrix) (a b : nat) :
  holds_on M N f P m → (a ≤ M)%nat → (b ≤ N)%nat →
  (∀ a' b', Q a' b' → (a', b') = (a, b) ∨ P a' b') →
  holds_on M N f Q (mat_upd m a b (f a b)).
Proof.
  intros [Hsh Hval] Ha Hb HQ. split; [by apply shape_mat_upd|].
  intros a' b' Ha' Hb' Hq.
  destruct (decide ((a, b) = (a', b'))) as [[= <- <-]|Hne].
  - eapply cell_at_mat_upd_eq; [done|lia..].
  - rewrite cell_at_mat_upd_ne by done.
    destruct (HQ _ _ Hq) as [?|?]; [congruence|by apply Hval].
Qed.

Lemma holds_on_weaken (P Q : nat → nat → Prop) (m : matrix) :
  holds_on M N f P m →
  (∀ a b, (a ≤ M)%nat → (b ≤ N)%nat → Q a b → P a b) →
  holds_on M N f Q m.
Proof. intros [Hsh Hval] HQ. split; [done|]. auto. Qed.

Lemma pair_score_nat (a b : nat) :
  (a < M)%nat → (b < N)%nat →
  pair_score seq1 seq2 match_score mismatch_penalty
    (Z.of_nat (S a)) (Z.of_nat (S b))
  = Ok (pair_value seq1 seq2 match_score mismatch_penalty a b).
Proof.
  intros Ha Hb. unfold pair_score, pair_value.
  destruct (lookup_lt_is_Some_2 seq1 a Ha) as [x Hx].
  destruct (lookup_lt_is_Some_2 seq2 b Hb) as [y Hy].
  replace (Z.of_nat (S a) - 1) with (Z.of_nat a) by lia.
  replace (Z.of_nat (S b) - 1) with (Z.of_nat b) by lia.
  rewrite (py_getitem_nat _ _ _ Hx), (py_getitem_nat _ _ _ Hy), Hx, Hy.
  done.
Qed.

End FillBasics.

(** Initialization succeeds as soon as the boundary values fit. *)
Section FillInit.
Variables (seq1 seq2 : list ascii).
Variables (match_score mismatch_penalty gap_penalty : Z).
Variable (unpenalized_end_gaps : bool).

Let M : nat := length seq1.
Let N : nat := length seq2.
Let f : nat → nat → Z :=
  nw_cell seq1 seq2 match_score mismatch_penalty gap_penalty unpenalized_end_gaps.

Hypothesis Hbound :
  ∀ k : nat, (k ≤ Nat.max M N)%nat →
  int64_min ≤ boundary gap_penalty unpenalized_end_gaps k ≤ int64_max.

Lemma init_matrix_boundary :
  ∃ m, init_matrix (py_len seq1) (py_len seq2) gap_penalty unpenalized_end_gaps
       = Ok m
     ∧ holds_on M N f (fun a b => a = O ∨ b = O) m.
Proof.
  unfold init_matrix, py_len. fold M N.
  replace (Z.to_nat (Z.of_nat M + 1)) with (S M) by lia.
  replace (Z.to_nat (Z.of_nat N + 1)) with (S N) by lia.
  destruct (for_each_range_inv
    (fun k m => holds_on M N f (fun a b => b = O ∧ (a ≤ k)%nat) m)
    (fun i m =>
       v ← np_store (boundary_value gap_penalty unpenalized_end_gaps i);
       mat_set m i 0 v)
    M (zeros (S M) (S N))) as (m1 & Hm1 & Hinv1).
  { split; [apply shape_zeros|]. intros a b Ha Hb [-> Hle].
    assert (a = O) as -> by lia.
    rewrite cell_at_zeros by lia. unfold f.
    by rewrite nw_cell_row0, boundary_0. }
  { intros k m Hk Hm. exists (mat_upd m (S k) O (f (S k) O)). split.
    - fold (boundary gap_penalty unpenalized_end_gaps (S k)).
      rewrite np_store_exact by (apply Hbound; lia).
      simpl. unfold f. rewrite nw_cell_col0.
      apply (mat_set_nat m (S M) (S N) (S k) O); [apply Hm|lia..].
    - eapply holds_on_upd; [exact Hm|lia..|].
      intros a' b' [-> Hle]. destruct (decide (a' = S k)) as [->|?]; [by left|].
      right. split; [done|lia]. }
  rewrite Hm1. simpl.
  destruct (for_each_range_inv
    (fun k m => holds_on M N f
       (fun a b => (b = O ∧ (a ≤ M)%nat) ∨ (a = O ∧ (b ≤ k)%nat)) m)
    (fun j m =>
       v ← np_store (boundary_value gap_penalty unpenalized_end_gaps j);
       mat_set m 0 j v)
    N m1) as (m2 & Hm2 & Hinv2).
  { eapply holds_on_weaken; [exact Hinv1|]. intros a b _ _ [?|[-> ?]]; [done|].
    split; lia. }
  { intros k m Hk Hm. exists (mat_upd m O (S k) (f O (S k))). split.
    - fold (boundary gap_penalty unpenalized_end_gaps (S k)).
      rewrite np_store_exact by (apply Hbound; lia).
      simpl. unfold f. rewrite nw_cell_row0.
      apply (mat_set_nat m (S M) (S N) O (S k)); [apply Hm|lia..].
    - eapply holds_on_upd; [exact Hm|lia..|].
      intros a' b' [[-> ?]|[-> Hle]]; [right; by left|].
      destruct (decide (b' = S k)) as [->|?]; [by left|].
      right. right. split; [done|lia]. }
  exists m2. split; [done|].
  destruct Hinv2 as [Hsh Hval]. split; [done|].
  intros a b Ha Hb [-> | ->]; apply Hval; try done.
  - right. split; [done|lia].
  - left. split; [done|lia].
Qed.

End FillInit.

Section Fill.
Variables (seq1 seq2 : list ascii).
Variables (match_score mismatch_penalty gap_penalty : Z).
Variable (unpenalized_end_gaps : bool).

Let M : nat := length seq1.
Let N : nat := length seq2.
Let f : nat → nat → Z :=
  nw_cell seq1 seq2 match_score mismatch_penalty gap_penalty unpenalized_end_gaps.

Hypothesis Hrange :
  no_overflow seq1 seq2 match_score mismatch_penalty gap_penalty.

Lemma init_matrix_spec :
  ∃ m, init_matrix (py_len seq1) (py_len seq2) gap_penalty unpenalized_end_gaps
       = Ok m
     ∧ holds_on M N f (fun a b => a = O ∨ b = O) m.
Proof.
  apply init_matrix_boundary. intros k Hk.
  apply (range_boundary seq1 seq2 match_score mismatch_penalty); [done|].
  fold M N. lia.
Qed.

Lemma fill_cell_spec (P : nat → nat → Prop) (m : matrix) (a b : nat) :
  holds_on M N f P m → (a < M)%nat → (b < N)%nat →
  P a b → P a (S b) → P (S a) b →
  fill_cell seq1 seq2 match_score mismatch_penalty gap_penalty
    (Z.of_nat (S a)) (Z.of_nat (S b)) m
  = Ok (mat_upd m (S a) (S b) (f (S a) (S b))).
Proof.
  intros [Hsh Hval] Ha Hb Hd Hu Hl. unfold fill_cell.
  replace (Z.of_nat (S a) - 1) with (Z.of_nat a) by lia.
  replace (Z.of_nat (S b) - 1) with (Z.of_nat b) by lia.
  pose proof (range_gap match_score mismatch_penalty gap_penalty)
    as [Hgn Hgp].
  rewrite (mat_get_nat m a b (f a b)) by (apply Hval; [lia..|done]). simpl.
  rewrite pair_score_nat by done. simpl.
  rewrite np_add_exact; cycle 1.
  { apply (range_operand seq1 seq2 match_score mismatch_penalty gap_penalty
             Hrange); [fold M; lia|apply range_pair_value]. }
  { apply (range_cell seq1 seq2 match_score mismatch_penalty gap_penalty
             unpenalized_end_gaps Hrange); [fold M; lia|fold N; lia| |fold M N; lia].
    apply range_pair_value. }
  simpl.
  rewrite (mat_get_nat m a (S b) (f a (S b))) by (apply Hval; [lia..|done]).
  simpl.
  rewrite np_sub_exact; cycle 1.
  { apply (range_operand seq1 seq2 match_score mismatch_penalty gap_penalty
             Hrange); [fold M; lia|done]. }
  { apply (range_cell seq1 seq2 match_score mismatch_penalty gap_penalty
             unpenalized_end_gaps Hrange _ _ (- gap_penalty));
      [fold M; lia|fold N; lia|done|fold M N; lia]. }
  simpl.
  rewrite (mat_get_nat m (S a) b (f (S a) b)) by (apply Hval; [lia..|done]).
  simpl.
  rewrite np_sub_exact; cycle 1.
  { apply (range_operand seq1 seq2 match_score mismatch_penalty gap_penalty
             Hrange); [fold M; lia|done]. }
  { apply (range_cell seq1 seq2 match_score mismatch_penalty gap_penalty
             unpenalized_end_gaps Hrange _ _ (- gap_penalty));
      [fold M; lia|fold N; lia|done|fold M N; lia]. }
  simpl.
  rewrite (mat_set_nat m (S M) (S N)) by (done || lia).
  reflexivity.
Qed.

Lemma fill_matrix_spec (m : matrix) :
  holds_on M N f (fun a b => a = O ∨ b = O) m →
  ∃ m', fill_matrix seq1 seq2 match_score mismatch_penalty gap_penalty
          (py_len seq1) (py_len seq2) m = Ok m'
      ∧ holds_on M N f (fun _ _ => True) m'.
Proof.
  intros Hm. unfold fill_matrix, py_len. fold M N.
  destruct (for_each_range_inv
    (fun k m => holds_on M N f (fun a b => (a ≤ k)%nat ∨ b = O) m)
    (fun i m => for_each (py_range 1 (Z.of_nat N + 1))
       (fun j m => fill_cell seq1 seq2 match_score mismatch_penalty
                     gap_penalty i j m) m)
    M m) as (m' & Hm' & Hinv).
  { eapply holds_on_weaken; [exact Hm|].
    intros a b _ _ [?|?]; [left; lia|by right]. }
  { intros k m1 Hk Hm1.
    destruct (for_each_range_inv
      (fun l m => holds_on M N f
         (fun a b => (a ≤ k)%nat ∨ b = O ∨ (a = S k ∧ (b ≤ l)%nat)) m)
      (fun j m => fill_cell seq1 seq2 match_score mismatch_penalty
                    gap_penalty (Z.of_nat (S k)) j m)
      N m1) as (m2 & Hm2 & Hinv2).
    { eapply holds_on_weaken; [exact Hm1|].
      intros a b _ _ [?|[?|[_ ?]]]; [by left|by right|right; lia]. }
    { intros l m2 Hl Hm2.
      exists (mat_upd m2 (S k) (S l) (f (S k) (S l))). split.
      - eapply fill_cell_spec; [exact Hm2|done..| | |].
        + by left.
        + by left.
        + right. right. split; [done|lia].
      - eapply holds_on_upd; [exact Hm2|lia..|].
        intros a' b' [?|[?|[-> Hle]]]; [right; by left|right; right; by left|].
        destruct (decide (b' = S l)) as [->|?]; [by left|].
        right. right. right. split; [done|lia]. }
    exists m2. split; [done|].
    eapply holds_on_weaken; [exact Hinv2|].
    intros a b _ Hb [Hle|?]; [|right; by left].
    destruct (decide (a = S k)) as [->|?]; [by do 2 right|left; lia]. }
  exists m'. split; [done|].
  eapply holds_on_weaken; [exact Hinv|]. intros a b Ha _ _. by left.
Qed.

(** The matrix the traceback reads holds [nw_cell] at every position. *)
Lemma score_matrix_of_spec :
  ∃ m, score_matrix_of seq1 seq2 match_score mismatch_penalty gap_penalty
         unpenalized_end_gaps = Ok m
     ∧ holds_on M N f (fun _ _ => True) m.
Proof.
  unfold score_matrix_of.
  destruct init_matrix_spec as (m0 & -> & Hm0). simpl.
  by apply fill_matrix_spec.
Qed.
End Fill.

(** * The traceback loop never exhausts its fuel *)

Lemma py_getitem_fuel {A} (l : list A) (k : Z) : py_getitem l k ≠ OutOfFuel.
Proof.
  unfold py_getitem. destruct (norm_index _ _); [|done].
  by destruct (l !! _).
Qed.

Lemma np_add_fuel (c p : Z) : np_add c p ≠ OutOfFuel.
Proof. unfold np_add. by destruct (fits64 p). Qed.

Lemma np_sub_fuel (c p : Z) : np_sub c p ≠ OutOfFuel.
Proof. unfold np_sub. by destruct (fits64 p). Qed.

Lemma mat_get_fuel (m : matrix) (i j : Z) : mat_get m i j ≠ OutOfFuel.
Proof.
  unfold mat_get. destruct (py_getitem m i) as [row| | |] eqn:Hrow; simpl;
    [apply py_getitem_fuel|done|done|by apply py_getitem_fuel in Hrow].
Qed.

Lemma pair_score_fuel (seq1 seq2 : list ascii) (ms mp : Z) (i j : Z) :
  pair_score seq1 seq2 ms mp i j ≠ OutOfFuel.
Proof.
  unfold pair_score.
  destruct (py_getitem seq1 _) as [a| | |] eqn:Ha; simpl;
    [|done|done|by apply py_getitem_fuel in Ha].
  destruct (py_getitem seq2 _) as [b| | |] eqn:Hb; simpl;
    [done|done|done|by apply py_getitem_fuel in Hb].
Qed.

(** Case analysis on the next computation a goal inspects; the case of
    exhausted fuel is closed, no computation but the loop using fuel. *)
Ltac case_result :=
  let H := fresh "Hcase" in
  match goal with
  | |- context [mat_get ?a ?b ?c] =>
      destruct (mat_get a b c) eqn:H;
      [| | |exfalso; by apply mat_get_fuel in H]
  | |- context [pair_score ?a ?b ?c ?d ?e ?g] =>
      destruct (pair_score a b c d e g) eqn:H;
      [| | |exfalso; by apply pair_score_fuel in H]
  | |- context [np_add ?a ?b] =>
      destruct (np_add a b) eqn:H; [| | |exfalso; by apply np_add_fuel in H]
  | |- context [np_sub ?a ?b] =>
      destruct (np_sub a b) eqn:H; [| | |exfalso; by apply np_sub_fuel in H]
  | |- context [py_getitem ?a ?b] =>
      destruct (py_getitem a b) eqn:H;
      [| | |exfalso; by apply py_getitem_fuel in H]
  | |- context [if ?c then _ else _] => destruct c eqn:H
  end; simpl; try done.

Section Fuel.
Variables (seq1 seq2 : list ascii).
Variables (match_score mismatch_penalty gap_penalty : Z).
Variable (m : matrix).

Lemma tb_choose_Diagonal (i j : Z) :
  tb_choose seq1 seq2 match_score mismatch_penalty gap_penalty m i j
    = Ok Diagonal → 0 < i ∧ 0 < j.
Proof.
  unfold tb_choose.
  destruct (Z.ltb_spec 0 i), (Z.ltb_spec 0 j); simpl;
    repeat case_result; intros [=]; lia.
Qed.

Lemma tb_choose_Up (i j : Z) :
  tb_choose seq1 seq2 match_score mismatch_penalty gap_penalty m i j
    = Ok Up → 0 < i.
Proof.
  unfold tb_choose.
  destruct (Z.ltb_spec 0 i), (Z.ltb_spec 0 j); simpl;
    repeat case_result; intros [=]; lia.
Qed.

Lemma tb_choose_fuel (i j : Z) :
  tb_choose seq1 seq2 match_score mismatch_penalty gap_penalty m i j
    ≠ OutOfFuel.
Proof.
  unfold tb_choose.
  destruct ((0 <? i) && (0 <? j)), (0 <? i); simpl; repeat case_result;
    done.
Qed.

Lemma tb_body_fuel (st : tb_state) :
  tb_body seq1 seq2 match_score mismatch_penalty gap_penalty m st
    ≠ OutOfFuel.
Proof.
  unfold tb_body.
  destruct (tb_choose _ _ _ _ _ _ _ _) as [[]| | |] eqn:Hc; simpl;
    [| | |done|done|by apply tb_choose_fuel in Hc]; repeat case_result.
Qed.

(** What one iteration does to the loop indices. *)
Lemma tb_body_indices (st st' : tb_state) :
  tb_body seq1 seq2 match_score mismatch_penalty gap_penalty m st = Ok st' →
  (0 < tb_i st ∧ 0 < tb_j st
     ∧ tb_i st' = tb_i st - 1 ∧ tb_j st' = tb_j st - 1)
  ∨ (0 < tb_i st ∧ tb_i st' = tb_i st - 1 ∧ tb_j st' = tb_j st)
  ∨ (- py_len seq2 ≤ tb_j st - 1
     ∧ tb_i st' = tb_i st ∧ tb_j st' = tb_j st - 1).
Proof.
  unfold tb_body.
  destruct (tb_choose _ _ _ _ _ _ _ _) as [[]| | |] eqn:Hc; simpl; try done.
  - apply tb_choose_Diagonal in Hc.
    destruct (py_getitem seq1 _); simpl; try done.
    destruct (py_getitem seq2 _); simpl; try done.
    intros [= <-]. simpl. left. lia.
  - apply tb_choose_Up in Hc.
    destruct (py_getitem seq1 _); simpl; try done.
    intros [= <-]. simpl. right. left. lia.
  - destruct (py_getitem seq2 _) eqn:Hg; simpl; try done.
    apply py_getitem_Ok in Hg.
    intros [= <-]. simpl. right. right. lia.
Qed.

Lemma tb_loop_fuel (fuel : nat) :
  ∀ st : tb_state,
  0 ≤ tb_i st → - py_len seq2 ≤ tb_j st →
  tb_i st + tb_j st + py_len seq2 ≤ Z.of_nat fuel →
  tb_loop seq1 seq2 match_score mismatch_penalty gap_penalty m fuel st
    ≠ OutOfFuel.
Proof.
  induction fuel as [|fuel IH]; intros st Hi Hj Hfuel; simpl.
  - unfold tb_guard.
    destruct (Z.ltb_spec 0 (tb_i st)), (Z.ltb_spec 0 (tb_j st));
      simpl; try done; exfalso; unfold py_len in *; lia.
  - destruct (tb_guard st); [|done].
    destruct (tb_body _ _ _ _ _ _ _) as [st'| | |] eqn:Hb; simpl;
      [|done|done|by apply tb_body_fuel in Hb].
    apply tb_body_indices in Hb. unfold py_len in *. apply IH; lia.
Qed.

Lemma traceback_fuel :
  traceback seq1 seq2 match_score mismatch_penalty gap_penalty m ≠ OutOfFuel.
Proof.
  unfold traceback, tb_init, tb_fuel. apply tb_loop_fuel; simpl;
    unfold py_len; lia.
Qed.
End Fuel.

(** * The traceback on a matrix that holds the recurrence *)

Lemma pos_succ (a : nat) : (0 <? Z.of_nat (S a)) = true.
Proof. apply Z.ltb_lt. lia. Qed.

Lemma pred_succ (a : nat) : Z.of_nat (S a) - 1 = Z.of_nat a.
Proof. lia. Qed.

Section Traceback.
Variables (seq1 seq2 : list ascii).
Variables (match_score mismatch_penalty gap_penalty : Z).
Variable (unpenalized_end_gaps : bool).
Variable (m : matrix).

Let M : nat := length seq1.
Let N : nat := length seq2.
Let f : nat → nat → Z :=
  nw_cell seq1 seq2 match_score mismatch_penalty gap_penalty unpenalized_end_gaps.
Let mv : nat → nat → move :=
  nw_move seq1 seq2 match_score mismatch_penalty gap_penalty unpenalized_end_gaps.
Let body : tb_state → result tb_state :=
  tb_body seq1 seq2 match_score mismatch_penalty gap_penalty m.

Hypothesis Hm : holds_on M N f (fun _ _ => True) m.
Hypothesis Hrange :
  no_overflow seq1 seq2 match_score mismatch_penalty gap_penalty.

Lemma mat_get_cell (a b : nat) :
  (a ≤ M)%nat → (b ≤ N)%nat → mat_get m (Z.of_nat a) (Z.of_nat b) = Ok (f a b).
Proof. intros Ha Hb. apply mat_get_nat. by apply Hm. Qed.

Lemma tb_choose_nat (a b : nat) :
  (a ≤ M)%nat → (b ≤ N)%nat →
  tb_choose seq1 seq2 match_score mismatch_penalty gap_penalty m
    (Z.of_nat a) (Z.of_nat b) = Ok (mv a b).
Proof.
  intros Ha Hb. unfold tb_choose, mv, nw_move.
  destruct a as [|a]; [done|]. rewrite pos_succ, pred_succ. fold f.
  pose proof (range_gap match_score mismatch_penalty gap_penalty)
    as [Hgn Hgp].
  assert (Hup : ∀ b' : nat, (b' ≤ N)%nat →
            np_sub (f a b') gap_penalty = Ok (f a b' - gap_penalty)).
  { intros b' Hb'. apply np_sub_exact.
    - apply (range_operand seq1 seq2 match_score mismatch_penalty gap_penalty
               Hrange); [fold M; lia|done].
    - apply (range_cell seq1 seq2 match_score mismatch_penalty gap_penalty
               unpenalized_end_gaps Hrange _ _ (- gap_penalty));
        [fold M; lia|done|done|fold M N; lia]. }
  destruct b as [|b].
  - simpl. rewrite !mat_get_cell by lia. simpl. rewrite Hup by lia. simpl.
    by destruct (_ =? _).
  - rewrite pos_succ, pred_succ. simpl.
    rewrite !mat_get_cell by lia. simpl.
    rewrite pair_score_nat by (fold M N; lia). simpl.
    assert (Hd : np_add (f a b)
                   (pair_value seq1 seq2 match_score mismatch_penalty a b)
                 = Ok (f a b
                       + pair_value seq1 seq2 match_score mismatch_penalty a b)).
    { apply np_add_exact.
      - apply (range_operand seq1 seq2 match_score mismatch_penalty
                 gap_penalty Hrange); [fold M; lia|apply range_pair_value].
      - apply (range_cell seq1 seq2 match_score mismatch_penalty gap_penalty
                 unpenalized_end_gaps Hrange);
          [fold M; lia|fold N; lia|apply range_pair_value|fold M N; lia]. }
    rewrite Hd. simpl. destruct (_ =? _); [done|]. simpl.
    rewrite Hup by lia. simpl.
    by destruct (_ =? _).
Qed.

Lemma tb_body_Diagonal (a b : nat) (x y : ascii) (acc1 acc2 : list ascii) :
  (a < M)%nat → (b < N)%nat → mv (S a) (S b) = Diagonal →
  seq1 !! a = Some x → seq2 !! b = Some y →
  body (TbState (Z.of_nat (S a)) (Z.of_nat (S b)) acc1 acc2)
  = Ok (TbState (Z.of_nat a) (Z.of_nat b) (acc1 ++ [x]) (acc2 ++ [y])).
Proof.
  intros Ha Hb Hmv Hx Hy. unfold body, tb_body. simpl tb_i. simpl tb_j.
  rewrite tb_choose_nat, Hmv by lia. simpl. rewrite !pred_succ.
  by rewrite (py_getitem_nat _ _ _ Hx), (py_getitem_nat _ _ _ Hy).
Qed.

Lemma tb_body_Up (a b : nat) (x : ascii) (acc1 acc2 : list ascii) :
  (a < M)%nat → (b ≤ N)%nat → mv (S a) b = Up →
  seq1 !! a = Some x →
  body (TbState (Z.of_nat (S a)) (Z.of_nat b) acc1 acc2)
  = Ok (TbState (Z.of_nat a) (Z.of_nat b) (acc1 ++ [x]) (acc2 ++ [gap])).
Proof.
  intros Ha Hb Hmv Hx. unfold body, tb_body. simpl tb_i. simpl tb_j.
  rewrite tb_choose_nat, Hmv by lia. simpl. rewrite !pred_succ.
  by rewrite (py_getitem_nat _ _ _ Hx).
Qed.

Lemma tb_body_Left (a b : nat) (y : ascii) (acc1 acc2 : list ascii) :
  (a ≤ M)%nat → (b < N)%nat → mv a (S b) = Left →
  seq2 !! b = Some y →
  body (TbState (Z.of_nat a) (Z.of_nat (S b)) acc1 acc2)
  = Ok (TbState (Z.of_nat a) (Z.of_nat b) (acc1 ++ [gap]) (acc2 ++ [y])).
Proof.
  intros Ha Hb Hmv Hy. unfold body, tb_body. simpl tb_i. simpl tb_j.
  rewrite tb_choose_nat, Hmv by lia. simpl. rewrite !pred_succ.
  by rewrite (py_getitem_nat _ _ _ Hy).
Qed.

Lemma mv_row0 (b : nat) : mv O b = Left.
Proof. done. Qed.

Lemma mv_col0 (a : nat) : mv (S a) O ≠ Diagonal.
Proof. unfold mv, nw_move. by destruct (_ =? _). Qed.
End Traceback.

(** * Gap markers *)

Lemma gapped_snoc_gap (s out : list ascii) :
  gapped s out → gapped s (out ++ [gap]).
Proof.
  induction 1 as [|s out _ IH|x s out _ IH]; simpl.
  - apply gapped_gap, gapped_nil.
  - by apply gapped_gap.
  - by apply gapped_sym.
Qed.

Lemma gapped_snoc_sym (x : ascii) (s out : list ascii) :
  gapped s out → gapped (s ++ [x]) (out ++ [x]).
Proof.
  induction 1 as [|s out _ IH|y s out _ IH]; simpl.
  - apply gapped_sym, gapped_nil.
  - by apply gapped_gap.
  - by apply gapped_sym.
Qed.


Lemma gapped_length (s out : list ascii) :
  gapped s out → (length s ≤ length out)%nat.
Proof. induction 1; simpl; lia. Qed.

(** * Unrolling the traceback loop *)

Section Loop.
Variables (seq1 seq2 : list ascii).
Variables (match_score mismatch_penalty gap_penalty : Z).
Variable (m : matrix).

Let body : tb_state → result tb_state :=
  tb_body seq1 seq2 match_score mismatch_penalty gap_penalty m.
Let loop : nat → tb_state → result tb_state :=
  tb_loop seq1 seq2 match_score mismatch_penalty gap_penalty m.

Lemma tb_loop_done (fuel : nat) (st : tb_state) :
  tb_guard st = false → loop fuel st = Ok st.
Proof. intros Hg. unfold loop. destruct fuel; simpl; by rewrite Hg. Qed.

Lemma tb_loop_step (fuel : nat) (st st' : tb_state) :
  tb_guard st = true → body st = Ok st' →
  loop (S fuel) st = loop fuel st'.
Proof.
  intros Hg Hb. unfold loop, body in *. simpl. by rewrite Hg, Hb.
Qed.

(** A run of the loop that returns is a finite sequence of iterations
    ending where the loop condition is false. *)
Lemma tb_loop_reach (fuel : nat) :
  ∀ st st' : tb_state,
  loop fuel st = Ok st' →
  ∃ k, (k ≤ fuel)%nat ∧ tb_reach body k st st' ∧ tb_guard st' = false.
Proof.
  unfold loop.
  induction fuel as [|fuel IH]; intros st st'; simpl;
    destruct (tb_guard st) eqn:Hg; try done.
  - intros [= <-]. exists O. split; [lia|]. split; [constructor|done].
  - destruct (tb_body _ _ _ _ _ _ _) as [st1| | |] eqn:Hb; simpl; try done.
    intros (k & Hk & Hreach & Hg')%IH.
    exists (S k). split; [lia|]. split; [|done].
    by apply tb_reach_S with st1.
  - intros [= <-]. exists O. split; [lia|]. split; [constructor|done].
Qed.

(** The runs of the loop are deterministic. *)
Lemma tb_reach_loop (k : nat) (st st' : tb_state) :
  tb_reach body k st st' → tb_guard st' = false →
  ∀ fuel, (k ≤ fuel)%nat → loop fuel st = Ok st'.
Proof.
  induction 1 as [st|k st st1 st2 Hg Hb _ IH]; intros Hg' fuel Hfuel.
  - by apply tb_loop_done.
  - destruct fuel as [|fuel]; [lia|].
    rewrite (tb_loop_step _ _ _ Hg Hb). apply IH; [done|lia].
Qed.
End Loop.

(** * The traceback when end gaps are penalized *)

Lemma tb_guard_nat (a b : nat) (acc1 acc2 : list ascii) :
  tb_guard (TbState (Z.of_nat a) (Z.of_nat b) acc1 acc2) = true
  ↔ (0 < a ∨ 0 < b)%nat.
Proof.
  unfold tb_guard. simpl. rewrite orb_true_iff, !Z.ltb_lt. lia.
Qed.

Section Penalized.
Variables (seq1 seq2 : list ascii).
Variables (match_score mismatch_penalty gap_penalty : Z).
Variable (m : matrix).

Let M : nat := length seq1.
Let N : nat := length seq2.
Let f : nat → nat → Z :=
  nw_cell seq1 seq2 match_score mismatch_penalty gap_penalty false.
Let mv : nat → nat → move :=
  nw_move seq1 seq2 match_score mismatch_penalty gap_penalty false.
Let body : tb_state → result tb_state :=
  tb_body seq1 seq2 match_score mismatch_penalty gap_penalty m.
Let loop : nat → tb_state → result tb_state :=
  tb_loop seq1 seq2 match_score mismatch_penalty gap_penalty m.

Hypothesis Hm : holds_on M N f (fun _ _ => True) m.
Hypothesis Hrange :
  no_overflow seq1 seq2 match_score mismatch_penalty gap_penalty.

(** In column 0 the up move always applies. *)
Lemma mv_col0_penalized (a : nat) : mv (S a) O = Up.
Proof.
  unfold mv, nw_move.
  rewrite !nw_cell_col0. unfold boundary, boundary_value. simpl negb.
  cbv iota.
  destruct (Z.eqb_spec (- gap_penalty * Z.of_nat (S a))
                       (- gap_penalty * Z.of_nat a - gap_penalty));
    [done|lia].
Qed.

(** One iteration from a position inside the matrix. *)
Lemma tb_step_penalized (a b : nat) (acc1 acc2 : list ascii) :
  (a ≤ M)%nat → (b ≤ N)%nat → (0 < a ∨ 0 < b)%nat →
  ∃ a' b' x y,
    body (TbState (Z.of_nat a) (Z.of_nat b) acc1 acc2)
    = Ok (TbState (Z.of_nat a') (Z.of_nat b') (acc1 ++ [x]) (acc2 ++ [y]))
    ∧ emits seq1 seq2 (mv a b) a b a' b' x y.
Proof.
  intros Ha Hb Hpos.
  destruct (mv a b) eqn:Hmv; unfold mv in Hmv.
  - destruct a as [|a]; [by rewrite (mv_row0 seq1 seq2) in Hmv|].
    destruct b as [|b]; [by apply mv_col0 in Hmv|].
    destruct (lookup_lt_is_Some_2 seq1 a) as [x Hx]; [fold M; lia|].
    destruct (lookup_lt_is_Some_2 seq2 b) as [y Hy]; [fold N; lia|].
    exists a, b, x, y. split; [|by constructor].
    eapply tb_body_Diagonal; eauto; fold M N; lia.
  - destruct a as [|a]; [by rewrite (mv_row0 seq1 seq2) in Hmv|].
    destruct (lookup_lt_is_Some_2 seq1 a) as [x Hx]; [fold M; lia|].
    exists a, b, x, gap. split; [|by constructor].
    eapply tb_body_Up; eauto; fold M N; lia.
  - destruct b as [|b].
    { destruct a as [|a]; [lia|]. by rewrite mv_col0_penalized in Hmv. }
    destruct (lookup_lt_is_Some_2 seq2 b) as [y Hy]; [fold N; lia|].
    exists a, b, gap, y. split; [|by constructor].
    eapply tb_body_Left; eauto; fold M N; lia.
Qed.

Lemma emits_decrease (k : move) (a b a' b' : nat) (x y : ascii) :
  emits seq1 seq2 k a b a' b' x y →
  (a' ≤ a ∧ b' ≤ b ∧ a' + b' < a + b)%nat.
Proof. destruct 1; lia. Qed.


(** The loop returns, within [a + b] iterations, at position [(0, 0)],
    having emitted two equally long sequences that are the prefixes of
    the inputs with gap markers inserted. *)
Lemma tb_loop_penalized (n : nat) :
  ∀ (a b : nat) (acc1 acc2 : list ascii) (fuel : nat),
  (a + b ≤ n)%nat → (n ≤ fuel)%nat → (a ≤ M)%nat → (b ≤ N)%nat →
  ∃ out1 out2,
    loop fuel (TbState (Z.of_nat a) (Z.of_nat b) acc1 acc2)
    = Ok (TbState 0 0 (acc1 ++ out1) (acc2 ++ out2))
    ∧ length out1 = length out2
    ∧ gapped (take a seq1) (rev out1)
    ∧ gapped (take b seq2) (rev out2).
Proof.
  induction n as [|n IH]; intros a b acc1 acc2 fuel Hn Hfuel Ha Hb.
  - assert (a = O) as -> by lia. assert (b = O) as -> by lia.
    exists [], []. rewrite !app_nil_r. split.
    + by apply tb_loop_done.
    + split; [done|]. rewrite !take_0. split; apply gapped_nil.
  - destruct (decide (a = O ∧ b = O)) as [[-> ->]|Hpos].
    { exists [], []. rewrite !app_nil_r. split.
      + by apply tb_loop_done.
      + split; [done|]. rewrite !take_0. split; apply gapped_nil. }
    assert (0 < a ∨ 0 < b)%nat as Hgt by lia.
    destruct (tb_step_penalized a b acc1 acc2 Ha Hb Hgt)
      as (a1 & b1 & x & y & Hstep & Hem).
    destruct fuel as [|fuel]; [lia|].
    pose proof (emits_decrease _ _ _ _ _ _ _ Hem) as Hdec.
    destruct (IH a1 b1 (acc1 ++ [x]) (acc2 ++ [y]) fuel)
      as (out1 & out2 & Hloop & Hlen & Hg1 & Hg2); [lia..|].
    exists (x :: out1), (y :: out2).
    unfold loop in *.
    rewrite (tb_loop_step _ _ _ _ _ _ _ _ _
               (proj2 (tb_guard_nat _ _ _ _) Hgt) Hstep).
    rewrite Hloop, <- !app_assoc. simpl. split; [done|].
    split; [by rewrite Hlen|].
    destruct Hem as [a1 b1 x y Hx Hy|a1 b1 x Hx|a1 b1 y Hy].
    + rewrite (take_S_r _ _ _ Hx), (take_S_r _ _ _ Hy).
      split; by apply gapped_snoc_sym.
    + rewrite (take_S_r _ _ _ Hx).
      split; [by apply gapped_snoc_sym|by apply gapped_snoc_gap].
    + rewrite (take_S_r _ _ _ Hy).
      split; [by apply gapped_snoc_gap|by apply gapped_snoc_sym].
Qed.
End Penalized.

(** * The aligner as a whole *)

Lemma np_store_fuel (v : Z) : np_store v ≠ OutOfFuel.
Proof. unfold np_store. by destruct (fits64 v). Qed.

Lemma mat_set_fuel (m : matrix) (i j v : Z) : mat_set m i j v ≠ OutOfFuel.
Proof.
  unfold mat_set.
  destruct (py_getitem m i) as [row| | |] eqn:Hrow; simpl;
    [|done|done|by apply py_getitem_fuel in Hrow].
  unfold py_setitem.
  destruct (norm_index (length row) j); simpl; [|done].
  by destruct (norm_index (length m) i).
Qed.

Lemma for_each_fuel {St : Type} (body : Z → St → result St) (xs : list Z) :
  (∀ x s, body x s ≠ OutOfFuel) → ∀ s, for_each xs body s ≠ OutOfFuel.
Proof.
  intros Hbody. induction xs as [|x xs IH]; intros s; simpl; [done|].
  destruct (body x s) as [s1| | |] eqn:Hb; simpl;
    [apply IH|done|done|by apply Hbody in Hb].
Qed.

Lemma fill_cell_fuel (seq1 seq2 : list ascii) (ms mp gp : Z) (i j : Z)
    (m : matrix) :
  fill_cell seq1 seq2 ms mp gp i j m ≠ OutOfFuel.
Proof. unfold fill_cell. repeat case_result. apply mat_set_fuel. Qed.

Lemma score_matrix_of_fuel (seq1 seq2 : list ascii) (ms mp gp : Z)
    (ueg : bool) :
  score_matrix_of seq1 seq2 ms mp gp ueg ≠ OutOfFuel.
Proof.
  unfold score_matrix_of, init_matrix, fill_matrix.
  assert (Hinit : ∀ (c : bool) (x : Z) (m : matrix),
            (v ← np_store (boundary_value gp ueg x);
             if c then mat_set m x 0 v else mat_set m 0 x v) ≠ OutOfFuel).
  { intros c x m. destruct (np_store _) as [v| | |] eqn:Hv; simpl;
      [|done|done|by apply np_store_fuel in Hv].
    destruct c; apply mat_set_fuel. }
  destruct (for_each _ _ _) as [m1| | |] eqn:H1; simpl;
    [|done|done|]; cycle 1.
  { exfalso. revert H1. apply for_each_fuel. intros x m. apply (Hinit true). }
  destruct (for_each _ _ m1) as [m2| | |] eqn:H2; simpl;
    [|done|done|]; cycle 1.
  { exfalso. revert H2. apply for_each_fuel. intros x m. apply (Hinit false). }
  apply for_each_fuel. intros x m. apply for_each_fuel.
  intros y m'. apply fill_cell_fuel.
Qed.

(** The model never stops for lack of fuel. *)
Lemma global_alignment_fuel (seq1 seq2 : list ascii)
    (match_score mismatch_penalty gap_penalty : Z) (unpenalized_end_gaps : bool) :
  global_alignment seq1 seq2 match_score mismatch_penalty gap_penalty
    unpenalized_end_gaps ≠ OutOfFuel.
Proof.
  unfold global_alignment.
  destruct (score_matrix_of _ _ _ _ _ _) as [m| | |] eqn:Hsm; simpl;
    [|done|done|by apply score_matrix_of_fuel in Hsm].
  destruct (traceback _ _ _ _ _ _) as [st| | |] eqn:Htb; simpl;
    [|done|done|by apply traceback_fuel in Htb].
  destruct (mat_get _ _ _) as [sc| | |] eqn:Hsc; simpl;
    [done|done|done|by apply mat_get_fuel in Hsc].
Qed.

(** On an input with [no_overflow] the score is the value of the recurrence
    at [(M, N)]. *)
Lemma global_alignment_score (seq1 seq2 : list ascii)
    (match_score mismatch_penalty gap_penalty : Z) (unpenalized_end_gaps : bool)
    (a1 a2 : list ascii) (score : Z) :
  no_overflow seq1 seq2 match_score mismatch_penalty gap_penalty →
  global_alignment seq1 seq2 match_score mismatch_penalty gap_penalty
    unpenalized_end_gaps = Ok (a1, a2, score) →
  score = nw_cell seq1 seq2 match_score mismatch_penalty gap_penalty
            unpenalized_end_gaps (length seq1) (length seq2).
Proof.
  intros Hrange. unfold global_alignment.
  destruct (score_matrix_of_spec seq1 seq2 match_score mismatch_penalty
              gap_penalty unpenalized_end_gaps Hrange) as (m & -> & Hm). simpl.
  destruct (traceback _ _ _ _ _ _) as [st| | |]; simpl; try done.
  unfold py_len. rewrite (mat_get_cell _ _ _ _ _ _ _ Hm) by lia. simpl.
  by intros [= _ _ <-].
Qed.

(** With penalized end gaps, on an input with [no_overflow], the call
    returns: the outputs are equally long, each is its input with gap
    markers inserted, and the score is the value of the recurrence at
    [(M, N)]. *)
Lemma global_alignment_penalized (seq1 seq2 : list ascii)
    (match_score mismatch_penalty gap_penalty : Z) :
  no_overflow seq1 seq2 match_score mismatch_penalty gap_penalty →
  ∃ a1 a2 : list ascii,
    global_alignment seq1 seq2 match_score mismatch_penalty gap_penalty false
    = Ok (a1, a2,
          nw_cell seq1 seq2 match_score mismatch_penalty gap_penalty false
            (length seq1) (length seq2))
    ∧ length a1 = length a2
    ∧ gapped seq1 a1 ∧ gapped seq2 a2.
Proof.
  intros Hrange. unfold global_alignment.
  destruct (score_matrix_of_spec seq1 seq2 match_score mismatch_penalty
              gap_penalty false Hrange) as (m & -> & Hm). simpl.
  destruct (tb_loop_penalized _ _ _ _ _ _ Hm Hrange
              (length seq1 + length seq2) (length seq1) (length seq2) [] []
              (tb_fuel seq1 seq2))
    as (out1 & out2 & Hloop & Hlen & Hg1 & Hg2);
    [unfold tb_fuel; lia..|].
  unfold traceback, tb_init, py_len. rewrite Hloop. simpl.
  rewrite (mat_get_cell _ _ _ _ _ _ _ Hm) by lia. simpl.
  exists (rev out1), (rev out2). split; [done|].
  rewrite !length_rev. split; [done|].
  by rewrite !firstn_all in *.
Qed.

(** * Aligning a sequence with itself *)

Section Identical.
Variable (A : list ascii).
Variables (match_score mismatch_penalty gap_penalty : Z).
Variable (unpenalized_end_gaps : bool).
Variable (m : matrix).

Hypothesis Hms : 0 < match_score.
Hypothesis Hmp : 0 ≤ mismatch_penalty.
Hypothesis Hgp : 0 ≤ gap_penalty.
Hypothesis Hm :
  holds_on (length A) (length A)
    (nw_cell A A match_score mismatch_penalty gap_penalty unpenalized_end_gaps)
    (fun _ _ => True) m.
Hypothesis Hrange : no_overflow A A match_score mismatch_penalty gap_penalty.

Lemma pair_value_diag (i : nat) :
  (i < length A)%nat →
  pair_value A A match_score mismatch_penalty i i = match_score.
Proof.
  intros Hi. unfold pair_value.
  destruct (lookup_lt_is_Some_2 A i Hi) as [x ->]. by rewrite Ascii.eqb_refl.
Qed.

Lemma nw_cell_diag (i : nat) :
  (i ≤ length A)%nat →
  nw_cell A A match_score mismatch_penalty gap_penalty unpenalized_end_gaps i i
  = match_score * Z.of_nat i.
Proof.
  induction i as [|i IH]; intros Hi.
  - rewrite nw_cell_row0, boundary_0. lia.
  - rewrite nw_cell_step, IH, pair_value_diag by lia.
    pose proof (nw_cell_le A A unpenalized_end_gaps match_score
                  mismatch_penalty gap_penalty i) as Hle1.
    pose proof (nw_cell_le A A unpenalized_end_gaps match_score
                  mismatch_penalty gap_penalty (S i)) as Hle2.
    specialize (Hle1 ltac:(lia) Hmp Hgp (S i)).
    specialize (Hle2 ltac:(lia) Hmp Hgp i).
    replace (Nat.min i (S i)) with i in Hle1 by lia.
    replace (Nat.min (S i) i) with i in Hle2 by lia.
    nia.
Qed.

Lemma nw_move_diag (i : nat) :
  (i < length A)%nat →
  nw_move A A match_score mismatch_penalty gap_penalty unpenalized_end_gaps
    (S i) (S i) = Diagonal.
Proof.
  intros Hi. unfold nw_move.
  rewrite !nw_cell_diag, pair_value_diag by lia.
  destruct (Z.eqb_spec (match_score * Z.of_nat (S i))
                       (match_score * Z.of_nat i + match_score)); [done|lia].
Qed.

(** From a position on the diagonal the loop takes diagonal moves only. *)
Lemma tb_loop_diag (i : nat) :
  ∀ (acc1 acc2 : list ascii) (fuel : nat),
  (i ≤ length A)%nat → (i ≤ fuel)%nat →
  tb_loop A A match_score mismatch_penalty gap_penalty m fuel
    (TbState (Z.of_nat i) (Z.of_nat i) acc1 acc2)
  = Ok (TbState 0 0 (acc1 ++ rev (take i A)) (acc2 ++ rev (take i A))).
Proof.
  induction i as [|i IH]; intros acc1 acc2 fuel Hi Hfuel.
  - rewrite take_0. simpl rev. rewrite !app_nil_r. by apply tb_loop_done.
  - destruct fuel as [|fuel]; [lia|].
    destruct (lookup_lt_is_Some_2 A i) as [x Hx]; [lia|].
    rewrite (tb_loop_step _ _ _ _ _ _ _ _
               (TbState (Z.of_nat i) (Z.of_nat i) (acc1 ++ [x]) (acc2 ++ [x]))).
    + rewrite IH by lia. rewrite (take_S_r _ _ _ Hx), rev_unit.
      by rewrite <- !app_assoc.
    + apply tb_guard_nat. lia.
    + eapply tb_body_Diagonal; eauto; try lia. by apply nw_move_diag.
Qed.
End Identical.

(** * Aligning against an empty prefix *)


Section Boundary.
Variables (seq1 seq2 : list ascii).
Variables (match_score mismatch_penalty gap_penalty : Z).
Variable (unpenalized_end_gaps : bool).
Variable (m : matrix).

Hypothesis Hm :
  holds_on (length seq1) (length seq2)
    (nw_cell seq1 seq2 match_score mismatch_penalty gap_penalty
       unpenalized_end_gaps)
    (fun _ _ => True) m.
Hypothesis Hrange :
  no_overflow seq1 seq2 match_score mismatch_penalty gap_penalty.

(** In row 0 the loop takes left moves only. *)
Lemma tb_loop_row0 (b : nat) :
  ∀ (acc1 acc2 : list ascii) (fuel : nat),
  (b ≤ length seq2)%nat → (b ≤ fuel)%nat →
  tb_loop seq1 seq2 match_score mismatch_penalty gap_penalty m fuel
    (TbState 0 (Z.of_nat b) acc1 acc2)
  = Ok (TbState 0 0 (acc1 ++ replicate b gap) (acc2 ++ rev (take b seq2))).
Proof.
  induction b as [|b IH]; intros acc1 acc2 fuel Hb Hfuel.
  - rewrite take_0. simpl. rewrite !app_nil_r. by apply tb_loop_done.
  - destruct fuel as [|fuel]; [lia|].
    destruct (lookup_lt_is_Some_2 seq2 b) as [y Hy]; [lia|].
    rewrite (tb_loop_step _ _ _ _ _ _ _ _
               (TbState 0 (Z.of_nat b) (acc1 ++ [gap]) (acc2 ++ [y]))).
    + rewrite IH by lia. rewrite (take_S_r _ _ _ Hy), rev_unit.
      by rewrite <- !app_assoc.
    + apply (tb_guard_nat O (S b)). lia.
    + change 0 with (Z.of_nat O).
      eapply tb_body_Left; eauto; lia.
Qed.

End Boundary.

(** * The priority of the moves *)

(** Whenever the choice of a move raises no exception, the diagonal move is
    chosen exactly when its condition holds, the up move exactly when the
    diagonal condition fails and the up condition holds, and the left move
    in every other case, its own recurrence term not being examined. *)
Lemma tb_choose_priority (seq1 seq2 : list ascii)
    (match_score mismatch_penalty gap_penalty : Z) (m : matrix) (i j : Z)
    (mv : move) :
  tb_choose seq1 seq2 match_score mismatch_penalty gap_penalty m i j = Ok mv →
  (mv = Diagonal ↔ diagonal_holds seq1 seq2 match_score mismatch_penalty m i j)
  ∧ (mv = Up ↔ ¬ diagonal_holds seq1 seq2 match_score mismatch_penalty m i j
               ∧ up_holds gap_penalty m i j)
  ∧ (mv = Left ↔ ¬ diagonal_holds seq1 seq2 match_score mismatch_penalty m i j
                 ∧ ¬ up_holds gap_penalty m i j).
Proof.
  unfold tb_choose, diagonal_holds, up_holds.
  destruct (Z.ltb_spec 0 i) as [Hi|Hi], (Z.ltb_spec 0 j) as [Hj|Hj]; simpl.
  - destruct (mat_get m i j) as [c| | |]; simpl; try done.
    destruct (mat_get m (i - 1) (j - 1)) as [d| | |]; simpl; try done.
    destruct (pair_score _ _ _ _ _ _) as [s| | |]; simpl; try done.
    destruct (np_add d s) as [v| | |] eqn:Hv; simpl; try done.
    destruct (Z.eqb_spec c v) as [->|Hd]; simpl.
    + intros [= <-]. split; [|split]; split; try done.
      * intros _. repeat split; try done. by exists v, d, s.
      * intros [Hn _]. exfalso. apply Hn. repeat split; try done.
        by exists v, d, s.
      * intros [Hn _]. exfalso. apply Hn. repeat split; try done.
        by exists v, d, s.
    + assert (Hnd : ¬ (0 < i ∧ 0 < j ∧ ∃ c0 d0 s0 : Z,
                Ok c = Ok c0 ∧ Ok d = Ok d0 ∧ Ok s = Ok s0
                ∧ np_add d0 s0 = Ok c0)).
      { intros (_ & _ & c0 & d0 & s0 & [= <-] & [= <-] & [= <-] & Hadd).
        congruence. }
      destruct (mat_get m (i - 1) j) as [u| | |]; simpl; try done.
      destruct (np_sub u gap_penalty) as [w| | |] eqn:Hw; simpl; try done.
      destruct (Z.eqb_spec c w) as [->|Hu]; intros [= <-].
      * split; [|split]; split; try done.
        -- intros _. split; [done|]. split; [done|]. by exists w, u.
        -- intros [_ Hn]. exfalso. apply Hn. split; [done|]. by exists w, u.
      * split; [|split]; split; try done.
        -- intros [_ (_ & c0 & u0 & [= <-] & [= <-] & Hsub)]. congruence.
        -- intros _. split; [done|].
           intros (_ & c0 & u0 & [= <-] & [= <-] & Hsub). congruence.
  - destruct (mat_get m i j) as [c| | |]; simpl; try done.
    destruct (mat_get m (i - 1) j) as [u| | |]; simpl; try done.
    destruct (np_sub u gap_penalty) as [w| | |] eqn:Hw; simpl; try done.
    destruct (Z.eqb_spec c w) as [->|Hu]; intros [= <-].
    + split; [|split]; split; try done.
      * intros (_ & ? & _). lia.
      * intros _. split; [intros (_ & ? & _); lia|].
        split; [done|]. by exists w, u.
      * intros [_ Hn]. exfalso. apply Hn. split; [done|]. by exists w, u.
    + split; [|split]; split; try done.
      * intros (_ & ? & _). lia.
      * intros [_ (_ & c0 & u0 & [= <-] & [= <-] & Hsub)]. congruence.
      * intros _. split; [intros (_ & ? & _); lia|].
        intros (_ & c0 & u0 & [= <-] & [= <-] & Hsub). congruence.
  - intros [= <-]. split; [|split]; split; try done.
    + intros (? & _). lia.
    + intros [_ (? & _)]. lia.
    + intros _. split; [intros (? & _); lia|intros (? & _); lia].
  - intros [= <-]. split; [|split]; split; try done.
    + intros (? & _). lia.
    + intros [_ (? & _)]. lia.
    + intros _. split; [intros (? & _); lia|intros (? & _); lia].
Qed.

(** * Every cell is a machine integer, on every input *)

Lemma for_each_partial {St : Type} (P : St → Prop)
    (body : Z → St → result St) (xs : list Z) :
  (∀ x s s1, P s → body x s = Ok s1 → P s1) →
  ∀ s s', P s → for_each xs body s = Ok s' → P s'.
Proof.
  intros Hbody. induction xs as [|x xs IH]; intros s s' Hs; simpl.
  - by intros [= <-].
  - destruct (body x s) as [s1| | |] eqn:Hb; simpl; try done.
    apply IH. by apply (Hbody x s).
Qed.

Lemma py_getitem_lookup {A : Type} (l : list A) (k : Z) (x : A) :
  py_getitem l k = Ok x → ∃ p : nat, norm_index (length l) k = Some p
                                     ∧ l !! p = Some x.
Proof.
  unfold py_getitem. destruct (norm_index (length l) k) as [p|]; [|done].
  destruct (l !! p) as [y|] eqn:Hp; [|done]. intros [= ->]. by exists p.
Qed.

Lemma mat_get_Ok (m : matrix) (i j v : Z) :
  mat_get m i j = Ok v → ∃ a b : nat, cell_at m a b = Some v.
Proof.
  unfold mat_get.
  destruct (py_getitem m i) as [row| | |] eqn:Hrow; simpl; try done.
  apply py_getitem_lookup in Hrow as (a & _ & Ha).
  intros (b & _ & Hb)%py_getitem_lookup.
  exists a, b. unfold cell_at. by rewrite Ha.
Qed.

Lemma mat_set_Ok (m m' : matrix) (i j v : Z) :
  mat_set m i j v = Ok m' → ∃ a b : nat, m' = mat_upd m a b v.
Proof.
  unfold mat_set.
  destruct (py_getitem m i) as [row| | |] eqn:Hrow; simpl; try done.
  apply py_getitem_lookup in Hrow as (a & Hna & Ha).
  unfold py_setitem. destruct (norm_index (length row) j) as [b|]; simpl;
    [|done].
  rewrite Hna. intros [= <-]. exists a, b. unfold mat_upd. by rewrite Ha.
Qed.

Lemma cells_fit_zeros (r c : nat) : cells_fit (zeros r c).
Proof.
  intros a b v. unfold cell_at, zeros.
  destruct (replicate r (replicate c 0) !! a) as [row|] eqn:Hrow; [|done].
  apply lookup_replicate in Hrow as [-> _].
  intros [-> _]%lookup_replicate. unfold int64_min, int64_max. lia.
Qed.

Lemma cells_fit_upd (m : matrix) (a b : nat) (v : Z) :
  cells_fit m → int64_min ≤ v ≤ int64_max → cells_fit (mat_upd m a b v).
Proof.
  intros Hm Hv a' b' w. unfold mat_upd.
  destruct (m !! a) as [row|] eqn:Hrow; [|apply Hm].
  unfold cell_at.
  destruct (decide (a = a')) as [<-|Hne].
  - rewrite list_lookup_insert_eq by (by eapply lookup_lt_Some).
    destruct (decide (b = b')) as [<-|Hneb].
    + intros Hw. apply list_lookup_insert_Some in Hw as [(_ & <- & _)|[? _]];
        done.
    + rewrite list_lookup_insert_ne by done. intros Hw.
      apply (Hm a b' w). unfold cell_at. by rewrite Hrow.
  - rewrite list_lookup_insert_ne by done. apply Hm.
Qed.

Lemma score_matrix_of_fits (seq1 seq2 : list ascii) (ms mp gp : Z)
    (ueg : bool) (m : matrix) :
  score_matrix_of seq1 seq2 ms mp gp ueg = Ok m → cells_fit m.
Proof.
  unfold score_matrix_of, init_matrix, fill_matrix.
  assert (Hinit : ∀ (c : bool) (x : Z) (m m1 : matrix),
            cells_fit m →
            (v ← np_store (boundary_value gp ueg x);
             if c then mat_set m x 0 v else mat_set m 0 x v) = Ok m1 →
            cells_fit m1).
  { intros c x m0 m1 Hm0.
    destruct (np_store _) as [v| | |] eqn:Hv; simpl; try done.
    apply np_store_Ok in Hv as [_ Hv].
    destruct c; intros (a & b & ->)%mat_set_Ok; by apply cells_fit_upd. }
  destruct (for_each _ _ _) as [m1| | |] eqn:H1; simpl; try done.
  apply for_each_partial with (P := cells_fit) in H1;
    [|intros x s s1; apply (Hinit true)|apply cells_fit_zeros].
  destruct (for_each _ _ m1) as [m2| | |] eqn:H2; simpl; try done.
  apply for_each_partial with (P := cells_fit) in H2;
    [|intros x s s1; apply (Hinit false)|done].
  apply for_each_partial with (P := cells_fit); [|done].
  intros x s s1 Hs. apply for_each_partial with (P := cells_fit); [|done].
  clear. intros y s s1 Hs. unfold fill_cell.
  destruct (mat_get s (x - 1) (y - 1)) as [d| | |]; simpl; try done.
  destruct (pair_score _ _ _ _ _ _) as [p| | |]; simpl; try done.
  destruct (np_add d p) as [v1| | |] eqn:H1; simpl; try done.
  destruct (mat_get s (x - 1) y) as [u| | |]; simpl; try done.
  destruct (np_sub u gp) as [v2| | |] eqn:H2; simpl; try done.
  destruct (mat_get s x (y - 1)) as [l| | |]; simpl; try done.
  destruct (np_sub l gp) as [v3| | |] eqn:H3; simpl; try done.
  apply np_add_Ok in H1 as (_ & _ & H1).
  apply np_sub_Ok in H2 as (_ & _ & H2).
  apply np_sub_Ok in H3 as (_ & _ & H3).
  intros (a & b & ->)%mat_set_Ok. apply cells_fit_upd; [done|lia].
Qed.

(** Every score the call returns is the value of a 64-bit integer. *)
Lemma global_alignment_score_fits (seq1 seq2 : list ascii) (ms mp gp : Z)
    (ueg : bool) (a1 a2 : list ascii) (s : Z) :
  global_alignment seq1 seq2 ms mp gp ueg = Ok (a1, a2, s) →
  int64_min ≤ s ≤ int64_max.
Proof.
  unfold global_alignment.
  destruct (score_matrix_of _ _ _ _ _ _) as [m| | |] eqn:Hsm; simpl;
    try done.
  apply score_matrix_of_fits in Hsm.
  destruct (traceback _ _ _ _ _ _) as [st| | |]; simpl; try done.
  destruct (mat_get _ _ _) as [sc| | |] eqn:Hsc; simpl; try done.
  intros [= _ _ <-]. apply mat_get_Ok in Hsc as (a & b & Hab).
  by apply (Hsm a b).
Qed.

(** * Aligning the empty sequence with a sequence *)




(** * The claims *)

(** C1 (amended).  For every pair of input sequences, both values of the
    flag and all integer parameters with
    [max(|match_score|, |mismatch_penalty|, |gap_penalty|) * (M + N) < 2^63]
    (so that no 64-bit cell overflows): the fill step completes; the matrix
    has [M+1] rows of [N+1] cells; every interior cell [(i, j)],
    [1 <= i <= M], [1 <= j <= N], is the maximum of cell [(i-1, j-1)] plus
    [match_score] if [seq1[i-1] == seq2[j-1]] else minus
    [mismatch_penalty], cell [(i-1, j)] minus [gap_penalty], and cell
    [(i, j-1)] minus [gap_penalty]; the score a call returns is cell
    [(M, N)]; and with penalized end gaps the call does return. *)
Theorem fill_invariant (seq1 seq2 : list ascii)
    (match_score mismatch_penalty gap_penalty : Z) (unpenalized_end_gaps : bool) :
  no_overflow seq1 seq2 match_score mismatch_penalty gap_penalty →
  ∃ m : matrix,
    score_matrix_of seq1 seq2 match_score mismatch_penalty gap_penalty
      unpenalized_end_gaps = Ok m
    ∧ shape m (S (length seq1)) (S (length seq2))
    ∧ (∀ i j : Z, 1 ≤ i ≤ py_len seq1 → 1 ≤ j ≤ py_len seq2 →
         ∃ (x y : ascii) (d u l : Z),
           py_getitem seq1 (i - 1) = Ok x
           ∧ py_getitem seq2 (j - 1) = Ok y
           ∧ mat_get m (i - 1) (j - 1) = Ok d
           ∧ mat_get m (i - 1) j = Ok u
           ∧ mat_get m i (j - 1) = Ok l
           ∧ mat_get m i j
             = Ok (Z.max
                     (Z.max (d + (if Ascii.eqb x y then match_score
                                  else - mismatch_penalty))
                            (u - gap_penalty))
                     (l - gap_penalty)))
    ∧ (∀ (a1 a2 : list ascii) (score : Z),
         global_alignment seq1 seq2 match_score mismatch_penalty gap_penalty
           unpenalized_end_gaps = Ok (a1, a2, score) →
         mat_get m (py_len seq1) (py_len seq2) = Ok score)
    ∧ (unpenalized_end_gaps = false →
         ∃ (a1 a2 : list ascii) (score : Z),
           global_alignment seq1 seq2 match_score mismatch_penalty gap_penalty
             unpenalized_end_gaps = Ok (a1, a2, score)).
Proof.
  intros Hrange.
  destruct (score_matrix_of_spec seq1 seq2 match_score mismatch_penalty
              gap_penalty unpenalized_end_gaps Hrange) as (m & Hsm & Hm).
  exists m. split; [done|]. split; [apply Hm|]. split; [|split].
  - intros i j Hi Hj. unfold py_len in Hi, Hj.
    set (a := Z.to_nat (i - 1)). set (b := Z.to_nat (j - 1)).
    replace i with (Z.of_nat (S a)) by lia.
    replace j with (Z.of_nat (S b)) by lia.
    rewrite !pred_succ.
    pose proof (mat_get_cell _ _ _ _ _ _ _ Hm) as Hget.
    destruct (lookup_lt_is_Some_2 seq1 a) as [x Hx]; [lia|].
    destruct (lookup_lt_is_Some_2 seq2 b) as [y Hy]; [lia|].
    exists x, y. rewrite !Hget by lia.
    rewrite (py_getitem_nat _ _ _ Hx), (py_getitem_nat _ _ _ Hy).
    eexists _, _, _. repeat split; try reflexivity.
    rewrite nw_cell_step. unfold pair_value. by rewrite Hx, Hy.
  - intros a1 a2 score Hga.
    apply global_alignment_score in Hga as ->; [|done].
    unfold py_len. by rewrite (mat_get_cell _ _ _ _ _ _ _ Hm) by lia.
  - intros ->.
    destruct (global_alignment_penalized seq1 seq2 match_score
                mismatch_penalty gap_penalty Hrange) as (a1 & a2 & Hga & _).
    eauto.
Qed.

Lemma fill_invariant_witness :
  ∃ m : matrix,
    score_matrix_of (str "GATTACA") (str "GCATGCU") 1 1 1 false = Ok m
    ∧ (∃ (x y : ascii) (d u l : Z),
         py_getitem (str "GATTACA") (3 - 1) = Ok x
         ∧ py_getitem (str "GCATGCU") (2 - 1) = Ok y
         ∧ mat_get m (3 - 1) (2 - 1) = Ok d
         ∧ mat_get m (3 - 1) 2 = Ok u
         ∧ mat_get m 3 (2 - 1) = Ok l
         ∧ mat_get m 3 2
           = Ok (Z.max (Z.max (d + (if Ascii.eqb x y then 1 else - 1))
                              (u - 1))
                       (l - 1)))
    ∧ mat_get m 7 7 = Ok 0.
Proof.
  assert (Hrange : no_overflow (str "GATTACA") (str "GCATGCU") 1 1 1)
    by (vm_compute; discriminate).
  destruct (fill_invariant (str "GATTACA") (str "GCATGCU") 1 1 1 false Hrange)
    as (m & Hsm & _ & Hcell & Hscore & _).
  exists m. split; [exact Hsm|]. split.
  - apply (Hcell 3 2); vm_compute; split; discriminate.
  - apply (Hscore (str "G-ATTACA") (str "GCA-TGCU") 0). vm_compute. reflexivity.
Defined.

(** C1, as stated, fails when a 64-bit cell overflows: on
    [align("AA", "AA", 2^62, 1, 1)] the fill step leaves [2^62] in cell
    [(1, 1)], [2^62 - 1] in cells [(1, 2)] and [(2, 1)], and [2^62 - 2] in
    cell [(2, 2)], whose diagonal candidate [2^62 + 2^62] wrapped around;
    the maximum of the three candidates is [2^63]. *)
Lemma fill_invariant_counterexample :
  ∃ m : matrix,
    score_matrix_of (str "AA") (str "AA") (2 ^ 62) 1 1 false = Ok m
    ∧ mat_get m 1 1 = Ok (2 ^ 62)
    ∧ mat_get m 1 2 = Ok (2 ^ 62 - 1)
    ∧ mat_get m 2 1 = Ok (2 ^ 62 - 1)
    ∧ mat_get m 2 2 = Ok (2 ^ 62 - 2)
    ∧ 2 ^ 62 - 2
      ≠ Z.max (Z.max (2 ^ 62 + 2 ^ 62) (2 ^ 62 - 1 - 1)) (2 ^ 62 - 1 - 1).
Proof.
  eexists. split; [vm_compute; reflexivity|].
  repeat split; try (vm_compute; reflexivity). vm_compute. discriminate.
Qed.

(** C8.  [align("A", "", 1, 1, 3, unpenalized_end_gaps=False)] returns
    score [-3], first output ["A"] and second output ["-"]. *)
Theorem scenario_4 :
  global_alignment (str "A") (str "") 1 1 3 false
  = Ok (str "A", str "-", -3).
Proof. vm_compute. reflexivity. Qed.

(** C3.  The call [align("A", "", 1, 1, 3, unpenalized_end_gaps=True)]
    does not return: at [(i, j) = (1, 0)] neither the diagonal nor the up
    condition holds, the left branch evaluates [seq2[j-1]] on the empty
    [seq2], and [IndexError] is raised. *)
Theorem unpenalized_raises :
  global_alignment (str "A") (str "") 1 1 3 true = IndexError.
Proof. vm_compute. reflexivity. Qed.







(** With [unpenalized_end_gaps=True] an output can repeat a symbol of its
    input: the left move taken at [(1, 0)] reads [seq2[-1]]. *)
Example unpenalized_duplicates :
  global_alignment (str "AB") (str "C") 1 1 1 true
  = Ok (str "A-B", str "-CC", -1).
Proof. vm_compute. reflexivity. Qed.

(** A parameter outside the 64-bit range makes the arithmetic on a cell
    raise [OverflowError]: on [align("A", "", 1, 1, 2^63)] the boundary
    value [-2^63] is stored, and the up test of the traceback subtracts
    [2^63] from a cell. *)
Example overflow_raises :
  global_alignment (str "A") (str "") 1 1 (2 ^ 63) false = OverflowError.
Proof. vm_compute. reflexivity. Qed.

(** C6 (amended).  For every sequence [A], every positive [match_score],
    every non-negative [mismatch_penalty] and [gap_penalty] with
    [max(match_score, mismatch_penalty, gap_penalty) * 2 len(A) < 2^63],
    and both values of the flag, [align(A, A, ...)] returns the score
    [match_score * len(A)] and both outputs equal to [A], no gap marker
    having been inserted. *)
Theorem identical_sequences (A : list ascii)
    (match_score mismatch_penalty gap_penalty : Z) (unpenalized_end_gaps : bool) :
  0 < match_score → 0 ≤ mismatch_penalty → 0 ≤ gap_penalty →
  no_overflow A A match_score mismatch_penalty gap_penalty →
  global_alignment A A match_score mismatch_penalty gap_penalty
    unpenalized_end_gaps
  = Ok (A, A, match_score * py_len A).
Proof.
  intros Hms Hmp Hgp Hrange. unfold global_alignment.
  destruct (score_matrix_of_spec A A match_score mismatch_penalty gap_penalty
              unpenalized_end_gaps Hrange) as (m & -> & Hm). simpl.
  unfold traceback, tb_init, py_len.
  rewrite (tb_loop_diag A match_score mismatch_penalty gap_penalty
             unpenalized_end_gaps m Hms Hmp Hgp Hm Hrange)
    by (unfold tb_fuel; lia).
  simpl. rewrite (mat_get_cell _ _ _ _ _ _ _ Hm) by lia. simpl.
  rewrite firstn_all, rev_involutive.
  by rewrite (nw_cell_diag A match_score mismatch_penalty gap_penalty
                unpenalized_end_gaps Hms Hmp Hgp) by lia.
Qed.

Lemma identical_sequences_witness :
  0 < 2 ∧ 0 ≤ 1 ∧ 0 ≤ 1
  ∧ global_alignment (str "AC") (str "AC") 2 1 1 false
    = Ok (str "AC", str "AC", 2 * py_len (str "AC")).
Proof.
  assert (H2 : 0 < 2) by lia. assert (H1 : 0 ≤ 1) by lia.
  assert (Hrange : no_overflow (str "AC") (str "AC") 2 1 1)
    by (vm_compute; discriminate).
  split; [exact H2|]. split; [exact H1|]. split; [exact H1|].
  exact (identical_sequences (str "AC") 2 1 1 false H2 H1 H1 Hrange).
Defined.

(** C6, as stated, fails when a 64-bit cell overflows:
    [align("AA", "AA", 2^62, 1, 1)] returns ["-AA"], ["AA-"] and the score
    [2^62 - 2], not ["AA"], ["AA"] and [2^62 * 2]. *)
Lemma identical_sequences_counterexample :
  0 < 2 ^ 62 ∧ 0 ≤ 1
  ∧ global_alignment (str "AA") (str "AA") (2 ^ 62) 1 1 false
    = Ok (str "-AA", str "AA-", 2 ^ 62 - 2)
  ∧ Ok (str "-AA", str "AA-", 2 ^ 62 - 2)
    ≠ Ok (str "AA", str "AA", 2 ^ 62 * py_len (str "AA")).
Proof.
  split; [done|]. split; [done|]. split; [vm_compute; reflexivity|].
  vm_compute. discriminate.
Qed.







(** C10 (amended).  For fixed sequences and flag, if
    [match_score <= match_score'], [mismatch_penalty' <= mismatch_penalty]
    and [gap_penalty' <= gap_penalty], and both triples of parameters have
    [max(|.|, |.|, |.|) * (M + N) < 2^63], then the score returned with the
    primed parameters is at least the score returned with the unprimed
    ones (changing one parameter and keeping the other two is the special
    case); with [unpenalized_end_gaps=False] both calls return. *)
Theorem score_monotone (seq1 seq2 : list ascii)
    (match_score mismatch_penalty gap_penalty : Z)
    (match_score' mismatch_penalty' gap_penalty' : Z)
    (unpenalized_end_gaps : bool) :
  match_score ≤ match_score' →
  mismatch_penalty' ≤ mismatch_penalty →
  gap_penalty' ≤ gap_penalty →
  no_overflow seq1 seq2 match_score mismatch_penalty gap_penalty →
  no_overflow seq1 seq2 match_score' mismatch_penalty' gap_penalty' →
  (∀ (a1 a2 b1 b2 : list ascii) (s s' : Z),
     global_alignment seq1 seq2 match_score mismatch_penalty gap_penalty
       unpenalized_end_gaps = Ok (a1, a2, s) →
     global_alignment seq1 seq2 match_score' mismatch_penalty' gap_penalty'
       unpenalized_end_gaps = Ok (b1, b2, s') →
     s ≤ s')
  ∧ (unpenalized_end_gaps = false →
     ∃ (a1 a2 b1 b2 : list ascii) (s s' : Z),
       global_alignment seq1 seq2 match_score mismatch_penalty gap_penalty
         unpenalized_end_gaps = Ok (a1, a2, s)
       ∧ global_alignment seq1 seq2 match_score' mismatch_penalty' gap_penalty'
           unpenalized_end_gaps = Ok (b1, b2, s')
       ∧ s ≤ s').
Proof.
  intros Hms Hmp Hgp Hrange Hrange'. split.
  - intros a1 a2 b1 b2 s s' H H'.
    apply global_alignment_score in H as ->; [|done].
    apply global_alignment_score in H' as ->; [|done].
    by apply nw_cell_mono.
  - intros ->.
    destruct (global_alignment_penalized seq1 seq2 match_score
                mismatch_penalty gap_penalty Hrange) as (a1 & a2 & H & _).
    destruct (global_alignment_penalized seq1 seq2 match_score'
                mismatch_penalty' gap_penalty' Hrange') as (b1 & b2 & H' & _).
    exists a1, a2, b1, b2. eexists _, _. split; [exact H|].
    split; [exact H'|]. by apply nw_cell_mono.
Qed.

Lemma score_monotone_witness :
  1 ≤ 2 ∧ 1 ≤ 1 ∧ 1 ≤ 2
  ∧ ∃ (a1 a2 b1 b2 : list ascii) (s s' : Z),
      global_alignment (str "GATTACA") (str "GCATGCU") 1 1 2 false
        = Ok (a1, a2, s)
      ∧ global_alignment (str "GATTACA") (str "GCATGCU") 2 1 1 false
          = Ok (b1, b2, s')
      ∧ s ≤ s'.
Proof.
  assert (H12 : 1 ≤ 2) by lia. assert (H11 : 1 ≤ 1) by lia.
  assert (Hrange : no_overflow (str "GATTACA") (str "GCATGCU") 1 1 2)
    by (vm_compute; discriminate).
  assert (Hrange' : no_overflow (str "GATTACA") (str "GCATGCU") 2 1 1)
    by (vm_compute; discriminate).
  split; [exact H12|]. split; [exact H11|]. split; [exact H12|].
  exact (proj2 (score_monotone (str "GATTACA") (str "GCATGCU")
                  1 1 2 2 1 1 false H12 H11 H12 Hrange Hrange') eq_refl).
Defined.

(** C10, as stated, fails when a 64-bit cell overflows:
    [align("AA", "AA", 2^62 - 1, 1, 1)] returns the score [2^63 - 2], and
    with the larger [match_score = 2^62] the call returns the smaller
    score [2^62 - 2]. *)
Lemma score_monotone_counterexample :
  2 ^ 62 - 1 ≤ 2 ^ 62
  ∧ global_alignment (str "AA") (str "AA") (2 ^ 62 - 1) 1 1 false
    = Ok (str "AA", str "AA", 2 ^ 63 - 2)
  ∧ global_alignment (str "AA") (str "AA") (2 ^ 62) 1 1 false
    = Ok (str "-AA", str "AA-", 2 ^ 62 - 2)
  ∧ ¬ (2 ^ 63 - 2 ≤ 2 ^ 62 - 2).
Proof.
  split; [done|]. split; [vm_compute; reflexivity|].
  split; [vm_compute; reflexivity|]. vm_compute. intros H. by apply H.
Qed.

(** C5.  On [align("AB", "C", 1, 1, 1, unpenalized_end_gaps=True)] the
    traceback loop does not run until [i = 0] and [j = 0]: the left move
    taken at [(1, 0)] leads to [j = -1], the up move taken at [(1, -1)]
    leads to [(0, -1)], and there the loop condition [i > 0 or j > 0] is
    false; the loop stops at [(0, -1)] with the emissions ["B-A"] and
    ["CC-"]. *)
Theorem traceback_stops_off_origin :
  ∃ m : matrix,
    score_matrix_of (str "AB") (str "C") 1 1 1 true = Ok m
    ∧ traceback (str "AB") (str "C") 1 1 1 m
      = Ok (TbState 0 (-1) (str "B-A") (str "CC-")).
Proof.
  eexists. split; [vm_compute; reflexivity|]. vm_compute. reflexivity.
Qed.

(** * Further properties: optimality of the penalized alignment *)

Lemma symbols1_app (cols cols' : list column) :
  symbols1 (cols ++ cols') = symbols1 cols ++ symbols1 cols'.
Proof.
  induction cols as [|[x y|x|y] cols IH]; simpl; by rewrite ?IH.
Qed.

Lemma symbols2_app (cols cols' : list column) :
  symbols2 (cols ++ cols') = symbols2 cols ++ symbols2 cols'.
Proof.
  induction cols as [|[x y|x|y] cols IH]; simpl; by rewrite ?IH.
Qed.

Lemma alignment_score_app (ms mp gp : Z) (cols cols' : list column) :
  alignment_score ms mp gp (cols ++ cols')
  = alignment_score ms mp gp cols + alignment_score ms mp gp cols'.
Proof. induction cols as [|c cols IH]; simpl; [done|]. rewrite IH. lia. Qed.

Lemma symbols_length (cols : list column) :
  (length (symbols1 cols) ≤ length cols
   ∧ length (symbols2 cols) ≤ length cols
   ∧ length cols ≤ length (symbols1 cols) + length (symbols2 cols))%nat.
Proof. induction cols as [|[x y|x|y] cols IH]; simpl; lia. Qed.

Lemma take_snoc_inv {A : Type} (l s : list A) (x : A) (i : nat) :
  l ++ [x] = take i s → (i ≤ length s)%nat →
  ∃ i', i = S i' ∧ l = take i' s ∧ s !! i' = Some x.
Proof.
  intros Heq Hi.
  assert (Hlen : length (l ++ [x]) = i) by (rewrite Heq, length_take; lia).
  rewrite length_app in Hlen. simpl in Hlen.
  destruct i as [|i']; [lia|]. exists i'.
  destruct (lookup_lt_is_Some_2 s i') as [y Hy]; [lia|].
  rewrite (take_S_r _ _ _ Hy) in Heq.
  apply app_inj_tail in Heq as [-> ->]. done.
Qed.

Section Optimal.
Variables (seq1 seq2 : list ascii).
Variables (match_score mismatch_penalty gap_penalty : Z).

Let f : nat → nat → Z :=
  nw_cell seq1 seq2 match_score mismatch_penalty gap_penalty false.
Let mv : nat → nat → move :=
  nw_move seq1 seq2 match_score mismatch_penalty gap_penalty false.
Let score : list column → Z :=
  alignment_score match_score mismatch_penalty gap_penalty.

(** Each cell dominates its three candidates, on the boundary too. *)
Lemma nw_cell_ge_diagonal (i j : nat) :
  f i j + pair_value seq1 seq2 match_score mismatch_penalty i j
  ≤ f (S i) (S j).
Proof. unfold f. rewrite nw_cell_step. lia. Qed.

Lemma nw_cell_ge_up (i j : nat) : f i j - gap_penalty ≤ f (S i) j.
Proof.
  unfold f. destruct j as [|j].
  - rewrite !nw_cell_col0. unfold boundary, boundary_value. simpl negb.
    cbv iota. lia.
  - rewrite nw_cell_step. lia.
Qed.

Lemma nw_cell_ge_left (i j : nat) : f i j - gap_penalty ≤ f i (S j).
Proof.
  unfold f. destruct i as [|i].
  - rewrite !nw_cell_row0. unfold boundary, boundary_value. simpl negb.
    cbv iota. lia.
  - rewrite nw_cell_step. lia.
Qed.

Lemma pair_value_lookup (i j : nat) (x y : ascii) :
  seq1 !! i = Some x → seq2 !! j = Some y →
  pair_value seq1 seq2 match_score mismatch_penalty i j
  = column_score match_score mismatch_penalty gap_penalty (Both x y).
Proof. intros Hx Hy. unfold pair_value. by rewrite Hx, Hy. Qed.

(** No alignment of two prefixes scores more than their cell. *)
Lemma alignment_score_le (cols : list column) :
  ∀ i j : nat,
  (i ≤ length seq1)%nat → (j ≤ length seq2)%nat →
  symbols1 cols = take i seq1 → symbols2 cols = take j seq2 →
  score cols ≤ f i j.
Proof.
  unfold score.
  induction cols as [|c cols IH] using rev_ind; intros i j Hi Hj H1 H2.
  - simpl in *.
    assert (i = O) as ->.
    { apply (f_equal length) in H1. rewrite length_take in H1. simpl in H1. lia. }
    assert (j = O) as ->.
    { apply (f_equal length) in H2. rewrite length_take in H2. simpl in H2. lia. }
    unfold f. rewrite nw_cell_row0, boundary_0. lia.
  - rewrite symbols1_app in H1. rewrite symbols2_app in H2.
    rewrite alignment_score_app. simpl alignment_score at 2.
    destruct c as [x y|x|y]; simpl in H1, H2;
      try rewrite app_nil_r in H1; try rewrite app_nil_r in H2.
    + apply take_snoc_inv in H1 as (i' & -> & H1 & Hx); [|done].
      apply take_snoc_inv in H2 as (j' & -> & H2 & Hy); [|done].
      specialize (IH i' j' ltac:(lia) ltac:(lia) H1 H2).
      pose proof (nw_cell_ge_diagonal i' j') as Hge.
      rewrite (pair_value_lookup _ _ _ _ Hx Hy) in Hge. lia.
    + apply take_snoc_inv in H1 as (i' & -> & H1 & Hx); [|done].
      specialize (IH i' j ltac:(lia) ltac:(lia) H1 H2).
      pose proof (nw_cell_ge_up i' j). simpl. lia.
    + apply take_snoc_inv in H2 as (j' & -> & H2 & Hy); [|done].
      specialize (IH i j' ltac:(lia) ltac:(lia) H1 H2).
      pose proof (nw_cell_ge_left i j'). simpl. lia.
Qed.

(** The move taken at a position accounts for the value of its cell. *)
Lemma nw_move_value (a b a' b' : nat) (x y : ascii) :
  emits seq1 seq2 (mv a b) a b a' b' x y →
  f a b
  = f a' b'
    + column_score match_score mismatch_penalty gap_penalty
        (column_of (mv a b) x y).
Proof.
  intros Hem. remember (mv a b) as k eqn:Hk.
  destruct Hem as [a' b' x y Hx Hy|a' b' x Hx|a' b' y Hy];
    unfold mv, nw_move in Hk; simpl column_of.
  - rewrite <- (pair_value_lookup _ _ _ _ Hx Hy). fold f in Hk.
    destruct (Z.eqb_spec (f (S a') (S b'))
                (f a' b' + pair_value seq1 seq2 match_score mismatch_penalty
                             a' b')) as [Heq|_]; [done|].
    by destruct (_ =? _).
  - simpl column_score. fold f in Hk.
    destruct (match b' with O => false | S _ => _ end); [done|].
    destruct (Z.eqb_spec (f (S a') b') (f a' b' - gap_penalty)); [lia|done].
  - simpl column_score. destruct a' as [|a'].
    + unfold f. rewrite !nw_cell_row0. unfold boundary, boundary_value.
      simpl negb. cbv iota. lia.
    + fold f in Hk.
      destruct (Z.eqb_spec (f (S a') (S b'))
                  (f a' b' + pair_value seq1 seq2 match_score mismatch_penalty
                               a' b')) as [_|Hd]; [done|].
      destruct (Z.eqb_spec (f (S a') (S b')) (f a' (S b') - gap_penalty))
        as [_|Hu]; [done|].
      unfold f in *. rewrite nw_cell_step in *. lia.
Qed.
End Optimal.

Section OptimalTraceback.
Variables (seq1 seq2 : list ascii).
Variables (match_score mismatch_penalty gap_penalty : Z).
Variable (m : matrix).

Hypothesis Hm :
  holds_on (length seq1) (length seq2)
    (nw_cell seq1 seq2 match_score mismatch_penalty gap_penalty false)
    (fun _ _ => True) m.
Hypothesis Hrange :
  no_overflow seq1 seq2 match_score mismatch_penalty gap_penalty.

Lemma emits_column (k : move) (a b a' b' : nat) (x y : ascii) :
  emits seq1 seq2 k a b a' b' x y →
  top (column_of k x y) = x ∧ bottom (column_of k x y) = y
  ∧ symbols1 [column_of k x y] ++ drop a seq1 = drop a' seq1
  ∧ symbols2 [column_of k x y] ++ drop b seq2 = drop b' seq2
  ∧ take a' seq1 ++ symbols1 [column_of k x y] = take a seq1
  ∧ take b' seq2 ++ symbols2 [column_of k x y] = take b seq2.
Proof.
  destruct 1 as [a' b' x y Hx Hy|a' b' x Hx|a' b' y Hy]; simpl;
    rewrite ?app_nil_r; repeat split;
    try done; try (by rewrite (take_S_r _ _ _ Hx));
    try (by rewrite (take_S_r _ _ _ Hy));
    try (symmetry; by apply drop_S).
Qed.

(** From a position of the matrix the loop emits, last column first, an
    alignment of the two prefixes whose score is the cell of the
    position. *)
Lemma tb_loop_columns (n : nat) :
  ∀ (a b : nat) (acc1 acc2 : list ascii) (fuel : nat),
  (a + b ≤ n)%nat → (n ≤ fuel)%nat →
  (a ≤ length seq1)%nat → (b ≤ length seq2)%nat →
  ∃ cols : list column,
    tb_loop seq1 seq2 match_score mismatch_penalty gap_penalty m fuel
      (TbState (Z.of_nat a) (Z.of_nat b) acc1 acc2)
    = Ok (TbState 0 0 (acc1 ++ rev (map top cols))
                      (acc2 ++ rev (map bottom cols)))
    ∧ symbols1 cols = take a seq1
    ∧ symbols2 cols = take b seq2
    ∧ alignment_score match_score mismatch_penalty gap_penalty cols
      = nw_cell seq1 seq2 match_score mismatch_penalty gap_penalty false a b.
Proof.
  induction n as [|n IH]; intros a b acc1 acc2 fuel Hn Hfuel Ha Hb.
  - assert (a = O) as -> by lia. assert (b = O) as -> by lia.
    exists []. simpl. rewrite !app_nil_r, nw_cell_row0, boundary_0.
    split; [by apply tb_loop_done|done].
  - destruct (decide (a = O ∧ b = O)) as [[-> ->]|Hpos].
    { exists []. simpl. rewrite !app_nil_r, nw_cell_row0, boundary_0.
      split; [by apply tb_loop_done|done]. }
    assert (0 < a ∨ 0 < b)%nat as Hgt by lia.
    destruct (tb_step_penalized _ _ _ _ _ _ Hm Hrange a b acc1 acc2 Ha Hb Hgt)
      as (a1 & b1 & x & y & Hstep & Hem).
    destruct fuel as [|fuel]; [lia|].
    pose proof (emits_decrease _ _ _ _ _ _ _ _ _ Hem) as Hdec.
    destruct (IH a1 b1 (acc1 ++ [x]) (acc2 ++ [y]) fuel)
      as (cols & Hloop & H1 & H2 & Hscore); [lia..|].
    pose proof (nw_move_value _ _ _ _ _ _ _ _ _ _ _ Hem) as Hval.
    destruct (emits_column _ _ _ _ _ _ _ Hem)
      as (Htop & Hbot & _ & _ & Ht1 & Ht2).
    set (c := column_of
                (nw_move seq1 seq2 match_score mismatch_penalty gap_penalty
                   false a b) x y) in *.
    exists (cols ++ [c]).
    rewrite (tb_loop_step _ _ _ _ _ _ _ _ _
               (proj2 (tb_guard_nat _ _ _ _) Hgt) Hstep).
    rewrite Hloop, !map_app, !rev_app_distr, <- !app_assoc. simpl.
    rewrite Htop, Hbot. split; [done|].
    rewrite symbols1_app, symbols2_app, H1, H2, Ht1, Ht2.
    split; [done|]. split; [done|].
    rewrite alignment_score_app, Hscore, Hval. simpl. lia.
Qed.
End OptimalTraceback.

(** With penalized end gaps and no overflow the call returns the two
    renderings of an alignment of its inputs, and the score of that
    alignment. *)
Lemma global_alignment_columns (seq1 seq2 : list ascii)
    (match_score mismatch_penalty gap_penalty : Z) :
  no_overflow seq1 seq2 match_score mismatch_penalty gap_penalty →
  ∃ cols : list column,
    symbols1 cols = seq1 ∧ symbols2 cols = seq2
    ∧ alignment_score match_score mismatch_penalty gap_penalty cols
      = nw_cell seq1 seq2 match_score mismatch_penalty gap_penalty false
          (length seq1) (length seq2)
    ∧ global_alignment seq1 seq2 match_score mismatch_penalty gap_penalty false
      = Ok (map top cols, map bottom cols,
            alignment_score match_score mismatch_penalty gap_penalty cols).
Proof.
  intros Hrange. unfold global_alignment.
  destruct (score_matrix_of_spec seq1 seq2 match_score mismatch_penalty
              gap_penalty false Hrange) as (m & -> & Hm). simpl.
  destruct (tb_loop_columns _ _ _ _ _ _ Hm Hrange
              (length seq1 + length seq2) (length seq1) (length seq2) [] []
              (tb_fuel seq1 seq2))
    as (cols & Hloop & H1 & H2 & Hscore); [unfold tb_fuel; lia..|].
  exists cols. rewrite firstn_all in H1, H2.
  split; [done|]. split; [done|]. split; [done|].
  unfold traceback, tb_init, py_len. rewrite Hloop. simpl.
  rewrite (mat_get_cell _ _ _ _ _ _ _ Hm) by lia. simpl.
  by rewrite !rev_involutive, Hscore.
Qed.

(** X1.  With [unpenalized_end_gaps=False] and
    [max(|match_score|, |mismatch_penalty|, |gap_penalty|) * (M + N) < 2^63]
    the call returns, and the score it returns is at least the score of
    every alignment of [seq1] with [seq2] (columns pairing two symbols
    score [match_score] or [-mismatch_penalty], columns with a gap score
    [-gap_penalty]). *)
Theorem returned_score_optimal (seq1 seq2 : list ascii)
    (match_score mismatch_penalty gap_penalty : Z) (cols : list column) :
  no_overflow seq1 seq2 match_score mismatch_penalty gap_penalty →
  symbols1 cols = seq1 → symbols2 cols = seq2 →
  ∃ (a1 a2 : list ascii) (s : Z),
    global_alignment seq1 seq2 match_score mismatch_penalty gap_penalty false
      = Ok (a1, a2, s)
    ∧ alignment_score match_score mismatch_penalty gap_penalty cols ≤ s.
Proof.
  intros Hrange H1 H2.
  destruct (global_alignment_penalized seq1 seq2 match_score mismatch_penalty
              gap_penalty Hrange) as (a1 & a2 & Hga & _).
  exists a1, a2. eexists. split; [exact Hga|].
  apply alignment_score_le; try lia; by rewrite firstn_all.
Qed.

Lemma returned_score_optimal_witness :
  ∃ (a1 a2 : list ascii) (s : Z),
    global_alignment (str "AC") (str "AC") 2 1 1 false = Ok (a1, a2, s)
    ∧ alignment_score 2 1 1
        [Del "A"%char; Both "C"%char "A"%char; Ins "C"%char] ≤ s.
Proof.
  assert (Hrange : no_overflow (str "AC") (str "AC") 2 1 1)
    by (vm_compute; discriminate).
  exact (returned_score_optimal (str "AC") (str "AC") 2 1 1
           [Del "A"%char; Both "C"%char "A"%char; Ins "C"%char]
           Hrange eq_refl eq_refl).
Defined.

(** X2.  With [unpenalized_end_gaps=False] and
    [max(|match_score|, |mismatch_penalty|, |gap_penalty|) * (M + N) < 2^63]
    the two strings the call returns are the two rows of one alignment of
    [seq1] with [seq2], and the score it returns is the score of that
    alignment: the optimum of X1 is attained by the returned alignment,
    even though the left move of the traceback is taken without a test. *)
Theorem returned_alignment_attains (seq1 seq2 : list ascii)
    (match_score mismatch_penalty gap_penalty : Z) :
  no_overflow seq1 seq2 match_score mismatch_penalty gap_penalty →
  ∃ cols : list column,
    symbols1 cols = seq1 ∧ symbols2 cols = seq2
    ∧ global_alignment seq1 seq2 match_score mismatch_penalty gap_penalty false
      = Ok (map top cols, map bottom cols,
            alignment_score match_score mismatch_penalty gap_penalty cols).
Proof.
  intros Hrange.
  destruct (global_alignment_columns seq1 seq2 match_score mismatch_penalty
              gap_penalty Hrange) as (cols & H1 & H2 & _ & Hga).
  by exists cols.
Qed.

Lemma returned_alignment_attains_witness :
  ∃ cols : list column,
    symbols1 cols = str "GATTACA" ∧ symbols2 cols = str "GCATGCU"
    ∧ global_alignment (str "GATTACA") (str "GCATGCU") 1 1 1 false
      = Ok (map top cols, map bottom cols, alignment_score 1 1 1 cols).
Proof.
  apply (returned_alignment_attains (str "GATTACA") (str "GCATGCU") 1 1 1).
  vm_compute. discriminate.
Defined.

(** X3.  With [unpenalized_end_gaps=False] and
    [max(|match_score|, |mismatch_penalty|, |gap_penalty|) * (M + N) < 2^63]
    the common length [L] of the two outputs satisfies
    [max(M, N) <= L <= M + N]. *)
Theorem output_length (seq1 seq2 : list ascii)
    (match_score mismatch_penalty gap_penalty : Z) :
  no_overflow seq1 seq2 match_score mismatch_penalty gap_penalty →
  ∃ (a1 a2 : list ascii) (s : Z),
    global_alignment seq1 seq2 match_score mismatch_penalty gap_penalty false
      = Ok (a1, a2, s)
    ∧ length a1 = length a2
    ∧ (Nat.max (length seq1) (length seq2) ≤ length a1
       ≤ length seq1 + length seq2)%nat.
Proof.
  intros Hrange.
  destruct (global_alignment_columns seq1 seq2 match_score mismatch_penalty
              gap_penalty Hrange) as (cols & H1 & H2 & _ & Hga).
  eexists _, _, _. split; [exact Hga|].
  rewrite !length_map. split; [done|].
  pose proof (symbols_length cols) as Hlen. rewrite H1, H2 in Hlen. lia.
Qed.

Lemma output_length_witness :
  ∃ (a1 a2 : list ascii) (s : Z),
    global_alignment (str "GATTACA") (str "GCATGCU") 1 1 1 false
      = Ok (a1, a2, s)
    ∧ length a1 = length a2
    ∧ (Nat.max (length (str "GATTACA")) (length (str "GCATGCU")) ≤ length a1
       ≤ length (str "GATTACA") + length (str "GCATGCU"))%nat.
Proof.
  apply (output_length (str "GATTACA") (str "GCATGCU") 1 1 1).
  vm_compute. discriminate.
Defined.

(** * Further properties: what holds for both values of the flag *)

Lemma py_getitem_pos {A : Type} (l : list A) (k : Z) (x : A) :
  py_getitem l k = Ok x → 0 ≤ k → l !! Z.to_nat k = Some x.
Proof.
  unfold py_getitem.
  destruct (norm_index (length l) k) as [p|] eqn:Hn; [|done].
  apply norm_index_Some in Hn as (_ & _ & Hpos & _).
  destruct (l !! p) as [y|] eqn:Hp; [|done].
  intros [= ->] Hk. rewrite (Hpos Hk), Nat2Z.id. done.
Qed.

Section AnyMatrix.
Variables (seq1 seq2 : list ascii).
Variables (match_score mismatch_penalty gap_penalty : Z).
Variable (m : matrix).

(** The three ways an iteration can complete. *)
Lemma tb_body_inv (st st' : tb_state) :
  tb_body seq1 seq2 match_score mismatch_penalty gap_penalty m st = Ok st' →
  (0 < tb_i st ∧ 0 < tb_j st ∧
   ∃ x y, py_getitem seq1 (tb_i st - 1) = Ok x
        ∧ py_getitem seq2 (tb_j st - 1) = Ok y
        ∧ st' = TbState (tb_i st - 1) (tb_j st - 1)
                  (aligned_seq1 st ++ [x]) (aligned_seq2 st ++ [y]))
  ∨ (0 < tb_i st ∧
     ∃ x, py_getitem seq1 (tb_i st - 1) = Ok x
        ∧ st' = TbState (tb_i st - 1) (tb_j st)
                  (aligned_seq1 st ++ [x]) (aligned_seq2 st ++ [gap]))
  ∨ (∃ y, py_getitem seq2 (tb_j st - 1) = Ok y
        ∧ st' = TbState (tb_i st) (tb_j st - 1)
                  (aligned_seq1 st ++ [gap]) (aligned_seq2 st ++ [y])).
Proof.
  unfold tb_body.
  destruct (tb_choose _ _ _ _ _ _ _ _) as [[]| | |] eqn:Hc; simpl; try done.
  - apply tb_choose_Diagonal in Hc as [Hi Hj].
    destruct (py_getitem seq1 _) as [x| | |]; simpl; try done.
    destruct (py_getitem seq2 _) as [y| | |]; simpl; try done.
    intros [= <-]. left. repeat split; try done. by exists x, y.
  - apply tb_choose_Up in Hc.
    destruct (py_getitem seq1 _) as [x| | |]; simpl; try done.
    intros [= <-]. right. left. split; [done|]. by exists x.
  - destruct (py_getitem seq2 _) as [y| | |]; simpl; try done.
    intros [= <-]. right. right. by exists y.
Qed.

(** Along every run of the loop [i] stays non-negative, the two lists of
    emissions stay equally long, and the first one, read backwards, is the
    part of [seq1] above position [i] with gap markers inserted. *)
Lemma tb_reach_first_output (k : nat) (st st' : tb_state) :
  tb_reach (tb_body seq1 seq2 match_score mismatch_penalty gap_penalty m)
    k st st' →
  0 ≤ tb_i st →
  length (aligned_seq1 st) = length (aligned_seq2 st) →
  gapped (drop (Z.to_nat (tb_i st)) seq1) (rev (aligned_seq1 st)) →
  0 ≤ tb_i st'
  ∧ length (aligned_seq1 st') = length (aligned_seq2 st')
  ∧ gapped (drop (Z.to_nat (tb_i st')) seq1) (rev (aligned_seq1 st')).
Proof.
  induction 1 as [st|k st st1 st2 Hg Hb _ IH]; intros Hi Hlen Hgap; [done|].
  apply tb_body_inv in Hb
    as [(Hi' & _ & x & y & Hx & _ & ->)|[(Hi' & x & Hx & ->)|(y & _ & ->)]];
    apply IH; simpl; rewrite ?length_app, ?rev_unit; simpl; try lia.
  - apply py_getitem_pos in Hx; [|lia]. apply drop_S in Hx.
    replace (S (Z.to_nat (tb_i st - 1))) with (Z.to_nat (tb_i st)) in Hx by lia.
    rewrite Hx. by apply gapped_sym.
  - apply py_getitem_pos in Hx; [|lia]. apply drop_S in Hx.
    replace (S (Z.to_nat (tb_i st - 1))) with (Z.to_nat (tb_i st)) in Hx by lia.
    rewrite Hx. by apply gapped_sym.
  - by apply gapped_gap.
Qed.
End AnyMatrix.

(** X4.  For both values of the flag and all integer parameters, whenever
    the call returns, its two outputs have the same length and the first
    output is [seq1] with gap markers inserted: no symbol of [seq1] is ever
    dropped, repeated or reordered (only the [seq2] side can be read at a
    negative index). *)
Theorem first_output_sound (seq1 seq2 : list ascii)
    (match_score mismatch_penalty gap_penalty : Z) (unpenalized_end_gaps : bool)
    (a1 a2 : list ascii) (s : Z) :
  global_alignment seq1 seq2 match_score mismatch_penalty gap_penalty
    unpenalized_end_gaps = Ok (a1, a2, s) →
  length a1 = length a2 ∧ gapped seq1 a1.
Proof.
  unfold global_alignment.
  destruct (score_matrix_of _ _ _ _ _ _) as [m| | |]; simpl; try done.
  destruct (traceback _ _ _ _ _ _) as [st| | |] eqn:Htb; simpl; try done.
  destruct (mat_get _ _ _) as [sc| | |]; simpl; try done.
  intros [= <- <- <-].
  apply tb_loop_reach in Htb as (k & _ & Hreach & Hg).
  apply tb_reach_first_output in Hreach as (Hi & Hlen & Hgap).
  - rewrite !length_rev. split; [done|].
    unfold tb_guard in Hg. apply orb_false_iff in Hg as [Hi0 _].
    apply Z.ltb_ge in Hi0.
    replace (Z.to_nat (tb_i st)) with O in Hgap by lia. done.
  - simpl. unfold py_len. lia.
  - done.
  - simpl. unfold py_len. rewrite Nat2Z.id, drop_all. apply gapped_nil.
Qed.

Lemma first_output_sound_witness :
  length (str "A-B") = length (str "-CC") ∧ gapped (str "AB") (str "A-B").
Proof.
  apply (first_output_sound (str "AB") (str "C") 1 1 1 true
           (str "A-B") (str "-CC") (-1)).
  vm_compute. reflexivity.
Defined.

(** A run that ends is not changed by more fuel. *)
Lemma tb_loop_more_fuel (seq1 seq2 : list ascii)
    (match_score mismatch_penalty gap_penalty : Z) (m : matrix) (fuel : nat) :
  ∀ (st : tb_state) (fuel' : nat),
  tb_loop seq1 seq2 match_score mismatch_penalty gap_penalty m fuel st
    ≠ OutOfFuel →
  (fuel ≤ fuel')%nat →
  tb_loop seq1 seq2 match_score mismatch_penalty gap_penalty m fuel' st
  = tb_loop seq1 seq2 match_score mismatch_penalty gap_penalty m fuel st.
Proof.
  induction fuel as [|fuel IH]; intros st fuel' Hend Hle.
  - simpl in *. destruct (tb_guard st) eqn:Hg; [done|].
    destruct fuel'; simpl; by rewrite Hg.
  - destruct fuel' as [|fuel']; [lia|]. simpl in *.
    destruct (tb_guard st); [|done].
    destruct (tb_body _ _ _ _ _ _ _) as [st1| | |]; simpl in *; try done.
    apply IH; [done|lia].
Qed.

(** X5.  For every input, either flag and whatever the matrix holds, the
    traceback loop ends, by leaving the loop or by raising [IndexError] or
    [OverflowError], within [M + 2 N] iterations: granting more iterations does not change
    its result, and a run that leaves the loop has made at most [M + 2 N]
    iterations. *)
Theorem traceback_terminates (seq1 seq2 : list ascii)
    (match_score mismatch_penalty gap_penalty : Z) (m : matrix) (fuel : nat) :
  (length seq1 + 2 * length seq2 ≤ fuel)%nat →
  tb_loop seq1 seq2 match_score mismatch_penalty gap_penalty m fuel
    (tb_init seq1 seq2)
  = traceback seq1 seq2 match_score mismatch_penalty gap_penalty m
  ∧ traceback seq1 seq2 match_score mismatch_penalty gap_penalty m ≠ OutOfFuel
  ∧ (∀ st : tb_state,
       traceback seq1 seq2 match_score mismatch_penalty gap_penalty m = Ok st →
       ∃ k : nat,
         (k ≤ length seq1 + 2 * length seq2)%nat
         ∧ tb_reach
             (tb_body seq1 seq2 match_score mismatch_penalty gap_penalty m)
             k (tb_init seq1 seq2) st
         ∧ tb_i st = 0 ∧ tb_j st ≤ 0).
Proof.
  intros Hfuel. split; [|split].
  - unfold traceback. apply tb_loop_more_fuel; [apply traceback_fuel|done].
  - apply traceback_fuel.
  - intros st Htb. unfold traceback in Htb.
    apply tb_loop_reach in Htb as (k & Hk & Hreach & Hg).
    exists k. split; [exact Hk|]. split; [exact Hreach|].
    apply tb_reach_first_output in Hreach as (Hi & _).
    + unfold tb_guard in Hg. apply orb_false_iff in Hg as [Hi0 Hj0].
      apply Z.ltb_ge in Hi0, Hj0. lia.
    + simpl. unfold py_len. lia.
    + done.
    + simpl. unfold py_len. rewrite Nat2Z.id, drop_all. apply gapped_nil.
Qed.

Lemma traceback_terminates_witness :
  ∃ m : matrix,
    score_matrix_of (str "AB") (str "C") 1 1 1 true = Ok m
    ∧ tb_loop (str "AB") (str "C") 1 1 1 m 10 (tb_init (str "AB") (str "C"))
      = traceback (str "AB") (str "C") 1 1 1 m.
Proof.
  eexists. split; [vm_compute; reflexivity|].
  apply (traceback_terminates (str "AB") (str "C") 1 1 1 _ 10).
  simpl. lia.
Defined.

(** * Further properties: the flag, and bounds on the score *)

Lemma tb_loop_raise (seq1 seq2 : list ascii)
    (match_score mismatch_penalty gap_penalty : Z) (m : matrix)
    (fuel : nat) (st : tb_state) :
  tb_guard st = true →
  tb_body seq1 seq2 match_score mismatch_penalty gap_penalty m st
    = IndexError →
  tb_loop seq1 seq2 match_score mismatch_penalty gap_penalty m (S fuel) st
    = IndexError.
Proof. intros Hg Hb. simpl. by rewrite Hg, Hb. Qed.

(** X6.  With [unpenalized_end_gaps=True], a non-zero [gap_penalty], a
    non-empty [seq1], an empty [seq2] and
    [max(|match_score|, |mismatch_penalty|, |gap_penalty|) * M < 2^63], the
    call always raises [IndexError]: at [(M, 0)] cell [(M, 0)] is [0] and
    differs from cell [(M-1, 0)] minus [gap_penalty], so the left branch
    evaluates [seq2[-1]] on the empty string. *)
Theorem unpenalized_empty_seq2_raises (seq1 : list ascii)
    (match_score mismatch_penalty gap_penalty : Z) :
  seq1 ≠ [] → gap_penalty ≠ 0 →
  no_overflow seq1 [] match_score mismatch_penalty gap_penalty →
  global_alignment seq1 [] match_score mismatch_penalty gap_penalty true
  = IndexError.
Proof.
  intros Hne Hgp Hrange. unfold global_alignment.
  destruct (score_matrix_of_spec seq1 [] match_score mismatch_penalty
              gap_penalty true Hrange) as (m & -> & Hm). simpl.
  destruct seq1 as [|x seq1]; [done|].
  unfold traceback, tb_init, tb_fuel, py_len.
  replace (length (x :: seq1) + 2 * length (@nil ascii))%nat
    with (S (length seq1)) by (simpl; lia).
  change (length (x :: seq1)) with (S (length seq1)) in *.
  change (length (@nil ascii)) with O in *.
  rewrite (tb_loop_raise _ _ _ _ _ _ _ _
             (proj2 (tb_guard_nat _ _ _ _) (or_introl (Nat.lt_0_succ _))));
    [done|].
  unfold tb_body. simpl tb_i. simpl tb_j.
  rewrite (tb_choose_nat (x :: seq1) [] match_score mismatch_penalty
             gap_penalty true m Hm Hrange (S (length seq1)) O)
    by (simpl; lia).
  unfold nw_move. rewrite !nw_cell_col0.
  unfold boundary, boundary_value. simpl negb. cbv iota.
  destruct (Z.eqb_spec 0 (0 - gap_penalty)) as [Heq|_]; [lia|].
  reflexivity.
Qed.

Lemma unpenalized_empty_seq2_raises_witness :
  global_alignment (str "GATTACA") [] 1 1 2 true = IndexError.
Proof.
  apply unpenalized_empty_seq2_raises;
    [discriminate|lia|vm_compute; discriminate].
Defined.

(** X7.  With [gap_penalty = 0] the flag has no effect: on every input the
    call with [unpenalized_end_gaps=True] does what the call with
    [unpenalized_end_gaps=False] does, whether it returns or raises; and
    with [max(|match_score|, |mismatch_penalty|) * (M + N) < 2^63] both
    return. *)
Theorem zero_gap_penalty_flag (seq1 seq2 : list ascii)
    (match_score mismatch_penalty : Z) :
  global_alignment seq1 seq2 match_score mismatch_penalty 0 true
  = global_alignment seq1 seq2 match_score mismatch_penalty 0 false
  ∧ (no_overflow seq1 seq2 match_score mismatch_penalty 0 →
     ∃ (a1 a2 : list ascii) (s : Z),
       global_alignment seq1 seq2 match_score mismatch_penalty 0 true
         = Ok (a1, a2, s)
       ∧ global_alignment seq1 seq2 match_score mismatch_penalty 0 false
         = Ok (a1, a2, s)).
Proof.
  split; [reflexivity|]. intros Hrange.
  destruct (global_alignment_penalized seq1 seq2 match_score mismatch_penalty 0
              Hrange) as (a1 & a2 & Hga & _).
  exists a1, a2. eexists. split; [|exact Hga].
  rewrite <- Hga. reflexivity.
Qed.

Lemma zero_gap_penalty_flag_witness :
  ∃ (a1 a2 : list ascii) (s : Z),
    global_alignment (str "AB") (str "C") 1 1 0 true = Ok (a1, a2, s)
    ∧ global_alignment (str "AB") (str "C") 1 1 0 false = Ok (a1, a2, s).
Proof.
  apply (proj2 (zero_gap_penalty_flag (str "AB") (str "C") 1 1)).
  vm_compute. discriminate.
Defined.

(** X8.  If the three parameters lie in [[-B, B]], every score the call
    returns lies in [[-B (M + N), B (M + N)]], for both values of the
    flag. *)
Theorem score_range (seq1 seq2 : list ascii)
    (match_score mismatch_penalty gap_penalty B : Z)
    (unpenalized_end_gaps : bool) (a1 a2 : list ascii) (s : Z) :
  - B ≤ match_score ≤ B → - B ≤ mismatch_penalty ≤ B →
  - B ≤ gap_penalty ≤ B →
  global_alignment seq1 seq2 match_score mismatch_penalty gap_penalty
    unpenalized_end_gaps = Ok (a1, a2, s) →
  - (B * (py_len seq1 + py_len seq2)) ≤ s ≤ B * (py_len seq1 + py_len seq2).
Proof.
  intros Hms Hmp Hgp Hga.
  destruct (Z_le_gt_dec (B * (py_len seq1 + py_len seq2)) int64_max)
    as [Hsmall|Hlarge].
  - assert (Hrange :
      no_overflow seq1 seq2 match_score mismatch_penalty gap_penalty).
    { unfold no_overflow, magnitude. unfold py_len in *. nia. }
    apply global_alignment_score in Hga as ->; [|done].
    pose proof (nw_cell_bounded seq1 seq2 unpenalized_end_gaps B match_score
                  mismatch_penalty gap_penalty (length seq1) Hms Hmp Hgp
                  (length seq2)) as Hb.
    unfold py_len. lia.
  - apply global_alignment_score_fits in Hga.
    unfold int64_min, int64_max in *. lia.
Qed.

Lemma score_range_witness :
  - (2 * (py_len (str "AB") + py_len (str "C"))) ≤ -1
  ≤ 2 * (py_len (str "AB") + py_len (str "C")).
Proof.
  apply (score_range (str "AB") (str "C") 1 1 1 2 true
           (str "A-B") (str "-CC") (-1)); try lia.
  vm_compute. reflexivity.
Defined.

(** X9.  With [match_score], [mismatch_penalty] and [gap_penalty] all
    non-negative and
    [max(match_score, mismatch_penalty, gap_penalty) * (M + N) < 2^63], no
    score the call returns exceeds [match_score * min(M, N)], for both
    values of the flag. *)
Theorem score_upper_bound (seq1 seq2 : list ascii)
    (match_score mismatch_penalty gap_penalty : Z)
    (unpenalized_end_gaps : bool) (a1 a2 : list ascii) (s : Z) :
  0 ≤ match_score → 0 ≤ mismatch_penalty → 0 ≤ gap_penalty →
  no_overflow seq1 seq2 match_score mismatch_penalty gap_penalty →
  global_alignment seq1 seq2 match_score mismatch_penalty gap_penalty
    unpenalized_end_gaps = Ok (a1, a2, s) →
  s ≤ match_score * Z.min (py_len seq1) (py_len seq2).
Proof.
  intros Hms Hmp Hgp Hrange Hga.
  apply global_alignment_score in Hga as ->; [|done].
  pose proof (nw_cell_le seq1 seq2 unpenalized_end_gaps match_score
                mismatch_penalty gap_penalty (length seq1) Hms Hmp Hgp
                (length seq2)) as Hle.
  unfold py_len. rewrite <- Nat2Z.inj_min. done.
Qed.

Lemma score_upper_bound_witness :
  0 ≤ 1 * Z.min (py_len (str "GATTACA")) (py_len (str "GCATGCU")).
Proof.
  apply (score_upper_bound (str "GATTACA") (str "GCATGCU") 1 1 1 false
           (str "G-ATTACA") (str "GCA-TGCU") 0); try lia.
  - vm_compute. discriminate.
  - vm_compute. reflexivity.
Defined.

Lemma nw_cell_flag_le (seq1 seq2 : list ascii)
    (match_score mismatch_penalty gap_penalty : Z) (i : nat) :
  0 ≤ gap_penalty →
  ∀ j : nat,
  nw_cell seq1 seq2 match_score mismatch_penalty gap_penalty false i j
  ≤ nw_cell seq1 seq2 match_score mismatch_penalty gap_penalty true i j.
Proof.
  intros Hgp.
  assert (Hb : ∀ k, boundary gap_penalty false k ≤ boundary gap_penalty true k).
  { intros k. unfold boundary, boundary_value. simpl. nia. }
  induction i as [|i IHi]; intros j.
  - rewrite !nw_cell_row0. apply Hb.
  - induction j as [|j IHj].
    + rewrite !nw_cell_col0. apply Hb.
    + rewrite !nw_cell_step.
      pose proof (IHi j). pose proof (IHi (S j)). lia.
Qed.

(** X10.  With a non-negative [gap_penalty] and
    [max(|match_score|, |mismatch_penalty|, |gap_penalty|) * (M + N) < 2^63],
    leaving end gaps unpenalized never lowers the score: whenever the call
    with [unpenalized_end_gaps=True] returns, its score is at least the
    score that the call with [unpenalized_end_gaps=False] returns on the
    same input. *)
Theorem unpenalized_score_ge (seq1 seq2 : list ascii)
    (match_score mismatch_penalty gap_penalty : Z)
    (b1 b2 : list ascii) (s' : Z) :
  0 ≤ gap_penalty →
  no_overflow seq1 seq2 match_score mismatch_penalty gap_penalty →
  global_alignment seq1 seq2 match_score mismatch_penalty gap_penalty true
    = Ok (b1, b2, s') →
  ∃ (a1 a2 : list ascii) (s : Z),
    global_alignment seq1 seq2 match_score mismatch_penalty gap_penalty false
      = Ok (a1, a2, s)
    ∧ s ≤ s'.
Proof.
  intros Hgp Hrange Htrue.
  apply global_alignment_score in Htrue as ->; [|done].
  destruct (global_alignment_penalized seq1 seq2 match_score mismatch_penalty
              gap_penalty Hrange) as (a1 & a2 & Hga & _).
  exists a1, a2. eexists. split; [exact Hga|].
  by apply nw_cell_flag_le.
Qed.

Lemma unpenalized_score_ge_witness :
  ∃ (a1 a2 : list ascii) (s : Z),
    global_alignment (str "AB") (str "C") 1 1 1 false = Ok (a1, a2, s)
    ∧ s ≤ -1.
Proof.
  apply (unpenalized_score_ge (str "AB") (str "C") 1 1 1
           (str "A-B") (str "-CC") (-1)); [lia| |].
  - vm_compute. discriminate.
  - vm_compute. reflexivity.
Defined.

(** X11.  With
    [max(|match_score|, |mismatch_penalty|, |gap_penalty|) * (M + N) < 2^63],
    after the fill step the boundary is as the initialization left it:
    cell [(i, 0)] for [0 <= i <= M] and cell [(0, j)] for [0 <= j <= N]
    hold [0] when [unpenalized_end_gaps] is true and [-gap_penalty] times
    the index otherwise (so cell [(0, 0)] is [0]); the fill step writes
    interior cells only. *)
Theorem boundary_cells (seq1 seq2 : list ascii)
    (match_score mismatch_penalty gap_penalty : Z) (unpenalized_end_gaps : bool) :
  no_overflow seq1 seq2 match_score mismatch_penalty gap_penalty →
  ∃ m : matrix,
    score_matrix_of seq1 seq2 match_score mismatch_penalty gap_penalty
      unpenalized_end_gaps = Ok m
    ∧ (∀ i : Z, 0 ≤ i ≤ py_len seq1 →
         mat_get m i 0
         = Ok (if unpenalized_end_gaps then 0 else - gap_penalty * i))
    ∧ (∀ j : Z, 0 ≤ j ≤ py_len seq2 →
         mat_get m 0 j
         = Ok (if unpenalized_end_gaps then 0 else - gap_penalty * j)).
Proof.
  intros Hrange.
  destruct (score_matrix_of_spec seq1 seq2 match_score mismatch_penalty
              gap_penalty unpenalized_end_gaps Hrange) as (m & Hsm & Hm).
  exists m. split; [done|].
  pose proof (mat_get_cell _ _ _ _ _ _ _ Hm) as Hget.
  unfold py_len. split.
  - intros i Hi. replace i with (Z.of_nat (Z.to_nat i)) at 1 by lia.
    change 0 with (Z.of_nat O) at 1.
    rewrite Hget, nw_cell_col0 by lia.
    unfold boundary, boundary_value. rewrite Z2Nat.id by lia.
    by destruct unpenalized_end_gaps.
  - intros j Hj. replace j with (Z.of_nat (Z.to_nat j)) at 1 by lia.
    change 0 with (Z.of_nat O) at 1.
    rewrite Hget, nw_cell_row0 by lia.
    unfold boundary, boundary_value. rewrite Z2Nat.id by lia.
    by destruct unpenalized_end_gaps.
Qed.

Lemma boundary_cells_witness :
  ∃ m : matrix,
    score_matrix_of (str "GATTACA") (str "GCATGCU") 1 1 2 false = Ok m
    ∧ mat_get m 7 0 = Ok (- 2 * 7)
    ∧ mat_get m 0 3 = Ok (- 2 * 3).
Proof.
  assert (Hrange : no_overflow (str "GATTACA") (str "GCATGCU") 1 1 2)
    by (vm_compute; discriminate).
  destruct (boundary_cells (str "GATTACA") (str "GCATGCU") 1 1 2 false Hrange)
    as (m & Hsm & Hcol & Hrow).
  exists m. split; [exact Hsm|]. split.
  - apply (Hcol 7). vm_compute. split; discriminate.
  - apply (Hrow 3). vm_compute. split; discriminate.
Defined.

(** * Further properties: the 64-bit cells *)

(** X12.  For every input and both values of the flag, a score the call
    returns is a 64-bit integer: it lies in [[-2^63, 2^63 - 1]], whatever
    the parameters. *)
Theorem returned_score_int64 (seq1 seq2 : list ascii)
    (match_score mismatch_penalty gap_penalty : Z)
    (unpenalized_end_gaps : bool) (a1 a2 : list ascii) (s : Z) :
  global_alignment seq1 seq2 match_score mismatch_penalty gap_penalty
    unpenalized_end_gaps = Ok (a1, a2, s) →
  - 2 ^ 63 ≤ s ≤ 2 ^ 63 - 1.
Proof.
  intros Hga. apply global_alignment_score_fits in Hga.
  unfold int64_min, int64_max in Hga. lia.
Qed.

Lemma returned_score_int64_witness : - 2 ^ 63 ≤ 2 ^ 62 - 2 ≤ 2 ^ 63 - 1.
Proof.
  apply (returned_score_int64 (str "AA") (str "AA") (2 ^ 62) 1 1 false
           (str "-AA") (str "AA-") (2 ^ 62 - 2)).
  vm_compute. reflexivity.
Defined.
